(** * types-extension: the type-level schema algebra, embedded and verified

    The repository is a library of TypeScript type aliases
    ([src/union.ts], [src/basic.ts], [src/object.ts]).  Every alias is a
    function from types to types, evaluated by the type checker.  This
    development embeds those functions over an explicit representation of
    the types they range over and proves (or refutes) the documented
    properties of the library.

    The types represented are the unions of primitives, string literals,
    callables, arrays (mutable, read-only, and the read-only array
    interface that [DeepReadonly] declares) and records.  The members that
    the standard library gives to arrays, callables and primitives
    ([length], [toString], ...) are not represented: statements that would
    depend on them are restricted to records, or to unions of primitives.

    Layout: the representation of types; the checker's primitives the
    aliases are written with ([extends], [keyof], [Pick], [Exclude],
    [Extract], [NonNullable], intersection [&], union [|]); the aliases of
    the three source files, in source order; then the theorems. *)

From Stdlib Require Import List String Bool Arith Lia.
Import ListNotations.
Open Scope string_scope.
Open Scope list_scope.

(* ================================================================== *)
(** * 1. Types *)
(* ================================================================== *)

(** [basic.ts]: [Primitive = null | undefined | string | number | boolean
    | symbol]. *)
Inductive prim : Type :=
| PNull | PUndefined | PString | PNumber | PBoolean | PSymbol.

(** A property key: a name, or one of the three index-signature keys that
    [keyof never = string | number | symbol] produces. *)
Inductive key : Type :=
| KName (s : string)
| KString
| KNumber
| KSymbol.

(** A property of an object type: its type as read by [T[P]], and the two
    modifiers [?] and [readonly]. *)
Record field (T : Type) : Type := Field {
  shape : T;
  optional : bool;
  readonly : bool
}.

Arguments Field {T} shape optional readonly.
Arguments shape {T} f.
Arguments optional {T} f.
Arguments readonly {T} f.

(** One alternative of a union.  A type is the list of its alternatives:
    [never] is the empty union, a non-union type has one alternative.
    This is the form over which conditional types distribute. *)
#[warnings="-register-all"]
Inductive alt : Type :=
| APrim (p : prim)
| ALit (s : string)                          (* string literal type *)
| AFun                                       (* any callable *)
| AArr (ro : bool) (elem : list alt)         (* T[] and ReadonlyArray<T> *)
| AObj (fs : list (key * field (list alt)))  (* { k : T; ... } *)
| AIface (all_ro all_opt : bool) (elem : list alt).
(** [AIface] is an object type that has the members of
    [ReadonlyArray<elem>] and is not an array type: the interface
    [_DeepReadonlyArray<T>] of [object.ts], which extends
    [ReadonlyArray<DeepReadonly<T>>] and declares nothing, and what a
    mapped type makes of it.  A conditional type sends it to its object
    branch, and a mapped type over it lists its members, which an array
    type is spared.  The members themselves ([length], the index signature,
    the methods) are not spelled out; [all_ro] says that a mapped type has
    put [readonly] on every one of them, the methods included, and
    [all_opt] that it has put [?] on every one of them. *)

Definition ty : Type := list alt.
Definition prop : Type := field ty.
Definition props : Type := list (key * prop).

Definition never : ty := [].
Definition TNull : ty := [APrim PNull].
Definition TUndefined : ty := [APrim PUndefined].
Definition TString : ty := [APrim PString].
Definition TNumber : ty := [APrim PNumber].
Definition TBoolean : ty := [APrim PBoolean].
Definition TSymbol : ty := [APrim PSymbol].
Definition TFunction : ty := [AFun].
Definition TLit (s : string) : ty := [ALit s].
Definition TArray (e : ty) : ty := [AArr false e].
Definition TReadonlyArray (e : ty) : ty := [AArr true e].
Definition TRecord (fs : props) : ty := [AObj fs].
(** [_DeepReadonlyArray<T>], with [e] for [DeepReadonly<T>]. *)
Definition TReadonlyArrayInterface (e : ty) : ty := [AIface false false e].

(** A plain required, writable property. *)
Definition req (t : ty) : prop := Field t false false.
(** A property declared with [?]. *)
Definition opt (t : ty) : prop := Field t true false.

(** ** Induction over alternatives, through the nested lists *)

Section alt_induction.
Variable P : alt -> Prop.
Hypothesis Hprim : forall p, P (APrim p).
Hypothesis Hlit : forall s, P (ALit s).
Hypothesis Hfun : P AFun.
Hypothesis Harr : forall ro e, Forall P e -> P (AArr ro e).
Hypothesis Hobj :
  forall fs, Forall (fun kf => Forall P (shape (snd kf))) fs -> P (AObj fs).
Hypothesis Hiface : forall r o e, Forall P e -> P (AIface r o e).

Fixpoint alt_nested_ind (a : alt) : P a :=
  match a with
  | APrim p => Hprim p
  | ALit s => Hlit s
  | AFun => Hfun
  | AArr ro e =>
      Harr ro e
        ((fix go (l : list alt) : Forall P l :=
            match l with
            | [] => Forall_nil P
            | x :: r => Forall_cons x (alt_nested_ind x) (go r)
            end) e)
  | AObj fs =>
      Hobj fs
        ((fix gof (l : props) :
            Forall (fun kf => Forall P (shape (snd kf))) l :=
            match l with
            | [] => Forall_nil _
            | kf :: r =>
                Forall_cons kf
                  ((fix go (l : list alt) : Forall P l :=
                      match l with
                      | [] => Forall_nil P
                      | x :: r => Forall_cons x (alt_nested_ind x) (go r)
                      end) (shape (snd kf)))
                  (gof r)
            end) fs)
  | AIface r o e =>
      Hiface r o e
        ((fix go (l : list alt) : Forall P l :=
            match l with
            | [] => Forall_nil P
            | x :: r => Forall_cons x (alt_nested_ind x) (go r)
            end) e)
  end.
End alt_induction.

(** ** Decidable equality *)

Definition prim_eqb (p q : prim) : bool :=
  match p, q with
  | PNull, PNull | PUndefined, PUndefined | PString, PString
  | PNumber, PNumber | PBoolean, PBoolean | PSymbol, PSymbol => true
  | _, _ => false
  end.

Definition key_eqb (k l : key) : bool :=
  match k, l with
  | KName s, KName t => String.eqb s t
  | KString, KString | KNumber, KNumber | KSymbol, KSymbol => true
  | _, _ => false
  end.

Section list_eqb.
Variables (A : Type) (eqb : A -> A -> bool).
Fixpoint list_eqb (l m : list A) : bool :=
  match l, m with
  | [], [] => true
  | x :: l', y :: m' => eqb x y && list_eqb l' m'
  | _, _ => false
  end.
End list_eqb.

Arguments list_eqb {A} eqb l m.

Fixpoint alt_eqb (a b : alt) {struct a} : bool :=
  match a, b with
  | APrim p, APrim q => prim_eqb p q
  | ALit s, ALit t => String.eqb s t
  | AFun, AFun => true
  | AArr ro e, AArr ro' e' => Bool.eqb ro ro' && list_eqb alt_eqb e e'
  | AObj fs, AObj gs =>
      list_eqb
        (fun (x y : key * prop) =>
           key_eqb (fst x) (fst y)
           && list_eqb alt_eqb (shape (snd x)) (shape (snd y))
           && Bool.eqb (optional (snd x)) (optional (snd y))
           && Bool.eqb (readonly (snd x)) (readonly (snd y)))
        fs gs
  | AIface r o e, AIface r' o' e' =>
      Bool.eqb r r' && Bool.eqb o o' && list_eqb alt_eqb e e'
  | _, _ => false
  end.

Definition ty_eqb : ty -> ty -> bool := list_eqb alt_eqb.

(* ================================================================== *)
(** * 2. The checker's primitives *)
(* ================================================================== *)

(** ** Unions

    A union is a set of alternatives: building one drops repeated
    alternatives (the first occurrence stays), and [A | B] drops the
    string literals next to [string], which contains them. *)

Definition mem (a : alt) (t : ty) : bool := existsb (alt_eqb a) t.

Fixpoint dedup (t : ty) : ty :=
  match t with
  | [] => []
  | a :: r => a :: filter (fun b => negb (alt_eqb a b)) (dedup r)
  end.

Definition is_literal (a : alt) : bool :=
  match a with ALit _ => true | _ => false end.

Definition absorb_literals (t : ty) : ty :=
  if mem (APrim PString) t then filter (fun a => negb (is_literal a)) t
  else t.

(** [A | B] *)
Definition union (s t : ty) : ty := absorb_literals (dedup (s ++ t)).

(** A distributive conditional type [T extends ... ? ... : ...] with a naked
    type parameter [T] is evaluated on each alternative of [T] and the
    results are united; on [never] it is [never]. *)
Definition distribute (f : alt -> ty) (t : ty) : ty := dedup (flat_map f t).

Definition undefined : alt := APrim PUndefined.
Definition null : alt := APrim PNull.

Definition is_undefined (a : alt) : bool :=
  match a with APrim PUndefined => true | _ => false end.

Definition is_nullish (a : alt) : bool :=
  match a with APrim PNull | APrim PUndefined => true | _ => false end.

(** [T | undefined], leaving [T] alone when it already admits [undefined]. *)
Definition add_undefined (t : ty) : ty :=
  if existsb is_undefined t then t else t ++ [undefined].

Definition remove_undefined (t : ty) : ty :=
  filter (fun a => negb (is_undefined a)) t.

(** ** Properties

    [T[P]]: reading an optional property may give [undefined]. *)
Definition read (f : prop) : ty :=
  if optional f then add_undefined (shape f) else shape f.

(** A property produced by a mapped type [{ [P in ...] : t }] from the
    source property [src]: [o] and [ro] are the modifiers of the result.
    With [?] the property type admits [undefined]; with [-?] on a property
    that was optional, [undefined] is taken out of it. *)
Definition mapped (o ro : bool) (src : prop) (t : ty) : prop :=
  Field (if o then add_undefined t
         else if optional src then remove_undefined t else t) o ro.

(** The same rule for the element of an array that is mapped as an object
    ([plus] for [?], [minus] for [-?]). *)
Definition mapped_elem (plus minus : bool) (t : ty) : ty :=
  if plus then add_undefined t
  else if minus then remove_undefined t else t.

(** Only the declared properties of record types are tracked; the built-in
    members of arrays, callables and primitives ([length], [toString], ...)
    are not part of the representation. *)
Definition props_of (a : alt) : props :=
  match a with AObj fs => fs | _ => [] end.

Definition lookup (k : key) (fs : props) : option prop :=
  match find (fun f => key_eqb (fst f) k) fs with
  | Some f => Some (snd f)
  | None => None
  end.

Definition has_key (k : key) (fs : props) : bool :=
  existsb (fun f => key_eqb (fst f) k) fs.

(** ** Assignability: [S extends T] (strictNullChecks)

    A weak type is an object type with at least one property, all of them
    optional named properties: a type that has properties of its own is
    assignable to it only if the two have a property in common. *)

Definition is_name (k : key) : bool :=
  match k with KName _ => true | _ => false end.

Definition weak (gs : props) : bool :=
  match gs with
  | [] => false
  | _ => forallb (fun g : key * prop => optional (snd g) && is_name (fst g)) gs
  end.

Definition common_property (fs gs : props) : bool :=
  existsb (fun f : key * prop => has_key (fst f) gs) fs.

Definition no_props (fs : props) : bool :=
  match fs with [] => true | _ => false end.

(** The built-in members of arrays, callables and primitives not being
    tracked, a type of these kinds is assignable to the empty object type
    and to no other record. *)
Fixpoint alt_extends (a b : alt) {struct a} : bool :=
  match a, b with
  | APrim p, APrim q => prim_eqb p q
  | ALit s, ALit t => String.eqb s t
  | ALit _, APrim PString => true
  | AFun, AFun => true
  | AArr ro e, AArr ro' e' =>
      implb ro ro' && forallb (fun x => existsb (alt_extends x) e') e
  | AArr _ e, AIface _ _ e' =>
      (* an array has every member of a ReadonlyArray *)
      forallb (fun x => existsb (alt_extends x) e') e
  | AIface _ o e, AArr true e' =>
      negb o && forallb (fun x => existsb (alt_extends x) e') e
  | AIface _ o e, AIface _ o' e' =>
      implb o o' && forallb (fun x => existsb (alt_extends x) e') e
  | AObj fs, AObj gs =>
      (* every property of the target is present in the source with an
         assignable type, or is optional in the target and absent *)
      forallb
        (fun g : key * prop =>
           existsb
             (fun f : key * prop =>
                key_eqb (fst f) (fst g)
                && implb (optional (snd f)) (optional (snd g))
                && forallb (fun x => existsb (alt_extends x) (read (snd g)))
                     (shape (snd f)))
             fs
           || (optional (snd g) && negb (has_key (fst g) fs)))
        gs
      && (negb (weak gs) || no_props fs || common_property fs gs)
  | APrim PNull, AObj _ | APrim PUndefined, AObj _ => false
  | _, AObj gs => no_props gs
  | _, _ => false
  end.

Definition ty_extends (s t : ty) : bool :=
  forallb (fun x => existsb (alt_extends x) t) s.

(** [T extends object]: records, arrays, array interfaces and callables. *)
Definition alt_is_object (a : alt) : bool :=
  match a with
  | AObj _ | AArr _ _ | AIface _ _ _ | AFun => true
  | _ => false
  end.

Definition extends_object (t : ty) : bool := forallb alt_is_object t.

(** ** [Exclude], [Extract], [NonNullable] (lib.es5.d.ts) *)

(** [Exclude<T, U> = T extends U ? never : T] *)
Definition Exclude (T U : ty) : ty :=
  distribute (fun a => if ty_extends [a] U then never else [a]) T.

(** [Extract<T, U> = T extends U ? T : never] *)
Definition Extract (T U : ty) : ty :=
  distribute (fun a => if ty_extends [a] U then [a] else never) T.


(** ** [keyof] *)

Definition key_alt (k : key) : alt :=
  match k with
  | KName s => ALit s
  | KString => APrim PString
  | KNumber => APrim PNumber
  | KSymbol => APrim PSymbol
  end.

Definition alt_key (a : alt) : option key :=
  match a with
  | ALit s => Some (KName s)
  | APrim PString => Some KString
  | APrim PNumber => Some KNumber
  | APrim PSymbol => Some KSymbol
  | _ => None
  end.

Definition keys_of (K : ty) : list key :=
  flat_map (fun a => match alt_key a with Some k => [k] | None => [] end) K.

Definition in_keys (k : key) (K : ty) : bool := mem (key_alt k) K.

Definition names (fs : props) : list key := map fst fs.

(** [keyof never = string | number | symbol]; the keys of a union are the
    keys common to its alternatives. *)
Definition keyof (T : ty) : ty :=
  match T with
  | [] => [APrim PString; APrim PNumber; APrim PSymbol]
  | a :: r =>
      filter (fun k => forallb (fun b => mem k (map key_alt (names (props_of b)))) r)
        (map key_alt (names (props_of a)))
  end.

(** ** Intersection [A & B]

    Alternatives of the same kind are intersected member-wise; [never]
    absorbs; identical types intersect to themselves.  A record
    intersected with an array, callable or non-null primitive keeps that
    alternative (the members a record would add to it are not tracked). *)

Fixpoint inter_alt (a b : alt) {struct a} : ty :=
  match a, b with
  | APrim p, APrim q => if prim_eqb p q then [a] else []
  | ALit s, ALit t => if String.eqb s t then [a] else []
  | ALit _, APrim PString => [a]
  | APrim PString, ALit _ => [b]
  | AFun, AFun => [a]
  | AArr ro e, AArr ro' e' =>
      [AArr (ro && ro')
         (if list_eqb alt_eqb e e' then e
          else dedup (flat_map (fun x => flat_map (inter_alt x) e') e))]
  | AIface r o e, AIface r' o' e' =>
      [AIface (r && r') (o && o')
         (if list_eqb alt_eqb e e' then e
          else dedup (flat_map (fun x => flat_map (inter_alt x) e') e))]
  | AObj fs, AObj gs =>
      [AObj
         (map (fun f : key * prop =>
                 match lookup (fst f) gs with
                 | Some g =>
                     (fst f,
                      Field
                        (if list_eqb alt_eqb (shape (snd f)) (shape g)
                         then shape (snd f)
                         else dedup (flat_map
                                       (fun x => flat_map (inter_alt x) (shape g))
                                       (shape (snd f))))
                        (optional (snd f) && optional g)
                        (readonly (snd f) && readonly g))
                 | None => f
                 end) fs
          ++ filter (fun g : key * prop => negb (has_key (fst g) fs)) gs)]
  | AObj _, APrim PNull | AObj _, APrim PUndefined
  | APrim PNull, AObj _ | APrim PUndefined, AObj _ => []
  | AObj _, _ => [b]
  | _, AObj _ => [a]
  | _, _ => []
  end.

Definition inter (s t : ty) : ty :=
  if ty_eqb s t then s
  else dedup (flat_map (fun x => flat_map (inter_alt x) t) s).

(** ** [Pick] (lib.es5.d.ts)

    [Pick<T, K extends keyof T> = { [P in K]: T[P] }].  On a type with one
    alternative it keeps the properties of [T] whose key is in [K], each
    with its type and modifiers.  It does not distribute over [T]: on
    [never] and on a union every key of [K] is mapped to [T[P]]. *)

Definition union_prop (T : ty) (k : key) : prop :=
  Field
    (distribute
       (fun a => match lookup k (props_of a) with
                 | Some f => read f
                 | None => never
                 end) T)
    (existsb (fun a => match lookup k (props_of a) with
                       | Some f => optional f
                       | None => false
                       end) T)
    (existsb (fun a => match lookup k (props_of a) with
                       | Some f => readonly f
                       | None => false
                       end) T).

Definition Pick (T K : ty) : ty :=
  match T with
  | [a] => [AObj (filter (fun f : key * prop => in_keys (fst f) K) (props_of a))]
  | _ => [AObj (map (fun k => (k, union_prop T k)) (keys_of K))]
  end.

(** ** Constraint violations

    A type argument that does not satisfy the constraint of its parameter
    is rejected by the checker.  The two constraints used by the library
    are [extends keyof ObjectType] (a key that the object type does not
    have) and [extends object] (an argument that is not an object type). *)

Inductive error : Type :=
| UnknownKeyError
| StructuralPreconditionError.

Inductive result : Type :=
| Ok (t : ty)
| Err (e : error).

Definition bind (r : result) (k : ty -> result) : result :=
  match r with
  | Ok t => k t
  | Err e => Err e
  end.

Definition requires (c : bool) (e : error) (k : result) : result :=
  if c then k else Err e.

Notation "x <- r ;; k" := (bind r (fun x => k))
  (at level 61, r at next level, right associativity).
Notation "'constraint' c 'or' e ;; k" := (requires c e k)
  (at level 61, c at next level, e at next level, right associativity).

(* ================================================================== *)
(** * 3. [union.ts] *)
(* ================================================================== *)

(** [Union<UnionType1, UnionType2> = UnionType1 | UnionType2] *)
Definition Union (UnionType1 UnionType2 : ty) : ty :=
  union UnionType1 UnionType2.

(** [Intersect<UnionType1, UnionType2> = Extract<UnionType1, UnionType2>] *)
Definition Intersect (UnionType1 UnionType2 : ty) : ty :=
  Extract UnionType1 UnionType2.

(** [Substract<UnionType1, UnionType2> = Exclude<UnionType1, UnionType2>] *)
Definition Substract (UnionType1 UnionType2 : ty) : ty :=
  Exclude UnionType1 UnionType2.

(** [Complement<UnionType1, UnionType2 extends UnionType1> =
      Substract<UnionType1, UnionType1>]: the right-hand side does not
    mention [UnionType2]. *)
Definition Complement (UnionType1 UnionType2 : ty) : result :=
  constraint (ty_extends UnionType2 UnionType1) or UnknownKeyError ;;
  Ok (Substract UnionType1 UnionType1).

(** [Difference<UnionType1, UnionType2> =
      Substract<UnionType1 | UnionType2, UnionType1 & UnionType2>] *)
Definition Difference (UnionType1 UnionType2 : ty) : ty :=
  Substract (union UnionType1 UnionType2) (inter UnionType1 UnionType2).

(* ================================================================== *)
(** * 4. [basic.ts] *)
(* ================================================================== *)

(** [NonUndefined<A> = A extends undefined ? never : A] *)
Definition NonUndefined (A : ty) : ty :=
  distribute (fun a => if ty_extends [a] TUndefined then never else [a]) A.

(* ================================================================== *)
(** * 5. [object.ts] *)
(* ================================================================== *)

(** ** Projections *)

(** [PickByKey<ObjectType, KeyType extends keyof ObjectType> =
      Pick<ObjectType, KeyType>] *)
Definition PickByKey (ObjectType KeyType : ty) : result :=
  constraint (ty_extends KeyType (keyof ObjectType)) or UnknownKeyError ;;
  Ok (Pick ObjectType KeyType).

(** [{ [Key in keyof ObjectType]: sel(ObjectType[Key]) ? Key : never }
      [keyof ObjectType]]: the mapped type is homomorphic, so it
    distributes over [ObjectType] and keeps [?], and reading an optional
    property of it adds [undefined] to the union of keys. *)
Definition value_keys (sel : ty -> bool) (ObjectType : ty) : ty :=
  distribute
    (fun a =>
       flat_map
         (fun f : key * prop =>
            if in_keys (fst f) (keyof ObjectType) then
              (if sel (read (snd f)) then [key_alt (fst f)] else never)
              ++ (if optional (snd f) then [undefined] else never)
            else never)
         (props_of a))
    ObjectType.

(** [PickByValue<ObjectType, ValueType> = Pick<ObjectType,
      { [Key in keyof ObjectType]:
          ObjectType[Key] extends ValueType ? Key : never }[keyof ObjectType]>] *)
Definition PickByValue (ObjectType ValueType : ty) : result :=
  Ok (Pick ObjectType
        (value_keys (fun t => ty_extends t ValueType) ObjectType)).

(** [OmitByKey<ObjectType, KeyType extends keyof ObjectType> =
      Pick<ObjectType, Exclude<keyof ObjectType, KeyType>>] *)
Definition OmitByKey (ObjectType KeyType : ty) : result :=
  constraint (ty_extends KeyType (keyof ObjectType)) or UnknownKeyError ;;
  Ok (Pick ObjectType (Exclude (keyof ObjectType) KeyType)).

(** [OmitByValue<ObjectType, ValueType> = Pick<ObjectType,
      { [Key in keyof ObjectType]:
          ObjectType[Key] extends ValueType ? never : Key }[keyof ObjectType]>] *)
Definition OmitByValue (ObjectType ValueType : ty) : result :=
  Ok (Pick ObjectType
        (value_keys (fun t => negb (ty_extends t ValueType)) ObjectType)).

(** ** Deep transforms

    Each is a distributive conditional type
    [T extends callable ? T : T extends array ? ... : T extends object ?
     ... : ...], given here on one alternative and distributed by
    [distribute].  In the object branch the source applies the transform to
    [T[P]]; the recursion below runs over the stored type of the property,
    and the lemmas [*_object_eq] show that this is the transform of
    [T[P]] as the source writes it.  A [ReadonlyArray] is not an [any[]]: it
    reaches the object branch, where a mapped type over an array maps its
    element.  The interface [_DeepReadonlyArray<T>] is neither an [any[]]
    nor an array type: it reaches the object branch too, where the mapped
    type lists its members, with the modifiers of the mapped type. *)

(** [DeepReadonly<T> = T extends (...args: any[]) => any ? T
      : T extends any[] ? _DeepReadonlyArray<T[number]>
      : T extends object ? _DeepReadonlyObject<T> : T]
    [_DeepReadonlyArray<T> extends ReadonlyArray<DeepReadonly<T>>]
    [_DeepReadonlyObject<T> = { readonly [P in keyof T]: DeepReadonly<T[P]> }] *)
Fixpoint DeepReadonly_alt (a : alt) : ty :=
  match a with
  | AFun => [a]
  | AArr false e => [AIface false false (distribute DeepReadonly_alt e)]
  | AArr true e =>
      [AArr true (mapped_elem false false (distribute DeepReadonly_alt e))]
  | AObj fs =>
      [AObj (map (fun f : key * prop =>
                    (fst f,
                     mapped (optional (snd f)) true (snd f)
                       (distribute DeepReadonly_alt (shape (snd f)))))
               fs)]
  | AIface _ o e =>
      [AIface true o
         (mapped_elem false false (distribute DeepReadonly_alt e))]
  | _ => [a]
  end.

Definition DeepReadonly (T : ty) : ty := distribute DeepReadonly_alt T.

(** [DeepRequired<T> = T extends (...args: any[]) => any ? T
      : T extends any[] ? _DeepRequiredArray<T[number]>
      : T extends object ? _DeepRequiredObject<T> : T]
    [_DeepRequiredArray<T> extends Array<DeepRequired<NonUndefined<T>>>]
    [_DeepRequiredObject<T> =
       { [P in keyof T]-?: DeepRequired<NonUndefined<T[P]>> }] *)
Fixpoint DeepRequired_alt (a : alt) : ty :=
  match a with
  | AFun => [a]
  | AArr false e =>
      [AArr false
         (distribute
            (fun x => if ty_extends [x] TUndefined then never
                      else DeepRequired_alt x) e)]
  | AArr true e =>
      [AArr true
         (mapped_elem false true
            (distribute
               (fun x => if ty_extends [x] TUndefined then never
                         else DeepRequired_alt x) e))]
  | AObj fs =>
      [AObj (map (fun f : key * prop =>
                    (fst f,
                     mapped false (readonly (snd f)) (snd f)
                       (distribute
                          (fun x => if ty_extends [x] TUndefined then never
                                    else DeepRequired_alt x)
                          (shape (snd f)))))
               fs)]
  | AIface r _ e =>
      [AIface r false
         (mapped_elem false true
            (distribute
               (fun x => if ty_extends [x] TUndefined then never
                         else DeepRequired_alt x) e))]
  | _ => [a]
  end.

Definition DeepRequired (T : ty) : ty := distribute DeepRequired_alt T.

(** [DeepNonNullable<T> = T extends (...args: any[]) => any ? T
      : T extends any[] ? _DeepNonNullableArray<T[number]>
      : T extends object ? _DeepNonNullableObject<T> : T]
    [_DeepNonNullableArray<T> extends Array<DeepNonNullable<NonNullable<T>>>]
    [_DeepNonNullableObject<T> =
       { [P in keyof T]-?: DeepNonNullable<NonNullable<T[P]>> }] *)
Fixpoint DeepNonNullable_alt (a : alt) : ty :=
  match a with
  | AFun => [a]
  | AArr false e =>
      [AArr false
         (distribute
            (fun x => if ty_extends [x] [null; undefined] then never
                      else DeepNonNullable_alt x) e)]
  | AArr true e =>
      [AArr true
         (mapped_elem false true
            (distribute
               (fun x => if ty_extends [x] [null; undefined] then never
                         else DeepNonNullable_alt x) e))]
  | AObj fs =>
      [AObj (map (fun f : key * prop =>
                    (fst f,
                     mapped false (readonly (snd f)) (snd f)
                       (distribute
                          (fun x => if ty_extends [x] [null; undefined]
                                    then never
                                    else DeepNonNullable_alt x)
                          (shape (snd f)))))
               fs)]
  | AIface r _ e =>
      [AIface r false
         (mapped_elem false true
            (distribute
               (fun x => if ty_extends [x] [null; undefined] then never
                         else DeepNonNullable_alt x) e))]
  | _ => [a]
  end.

Definition DeepNonNullable (T : ty) : ty := distribute DeepNonNullable_alt T.

(** [DeepPartial<T> = T extends Function ? T
      : T extends Array<infer U> ? _DeepPartialArray<U>
      : T extends object ? _DeepPartialObject<T> : T | undefined]
    [_DeepPartialArray<T> extends Array<DeepPartial<T>>]
    [_DeepPartialObject<T> = { [P in keyof T]?: DeepPartial<T[P]> }] *)
Fixpoint DeepPartial_alt (a : alt) : ty :=
  match a with
  | AFun => [a]
  | AArr false e => [AArr false (distribute DeepPartial_alt e)]
  | AArr true e =>
      [AArr true (mapped_elem true false (distribute DeepPartial_alt e))]
  | AObj fs =>
      [AObj (map (fun f : key * prop =>
                    (fst f,
                     mapped true (readonly (snd f)) (snd f)
                       (distribute DeepPartial_alt (shape (snd f)))))
               fs)]
  | AIface r _ e =>
      [AIface r true (mapped_elem true false (distribute DeepPartial_alt e))]
  | _ => union [a] TUndefined
  end.

Definition DeepPartial (T : ty) : ty := distribute DeepPartial_alt T.

(** ** Object set operations *)

(** [ObjectIntersect<T extends object, U extends object> =
      T extends any ? Pick<T, Intersect<keyof T, keyof U>> : never] *)
Definition ObjectIntersect (T U : ty) : result :=
  constraint (extends_object T) or StructuralPreconditionError ;;
  constraint (extends_object U) or StructuralPreconditionError ;;
  Ok (distribute (fun a => Pick [a] (Intersect (keyof [a]) (keyof U))) T).

(** [ObjectSubtract<T extends object, U extends object> =
      Pick<T, Substract<keyof T, keyof U>>] *)
Definition ObjectSubtract (T U : ty) : result :=
  constraint (extends_object T) or StructuralPreconditionError ;;
  constraint (extends_object U) or StructuralPreconditionError ;;
  Ok (Pick T (Substract (keyof T) (keyof U))).

(** [ObjectComplement<T extends T1, T1 extends object> =
      Pick<T, Complement<keyof T, keyof T1>>].  The constraint of
    [Complement] is checked where this alias is declared, against the
    constraints of [T] and [T1], and not again at each use: a use of
    [ObjectComplement] gets the right-hand side of [Complement] at
    [keyof T], which is [Substract<keyof T, keyof T>]. *)
Definition ObjectComplement (T T1 : ty) : result :=
  constraint (extends_object T1) or StructuralPreconditionError ;;
  constraint (ty_extends T T1) or StructuralPreconditionError ;;
  Ok (Pick T (Substract (keyof T) (keyof T))).

(** ** Merges *)

(** [MergeOverride<T extends object, U extends object,
      I = ObjectSubtract<T, U> & Intersect<U, T>> = Pick<I, keyof I>]:
    [Intersect] is the alias of [union.ts], applied to the object types. *)
Definition MergeOverride (T U : ty) : result :=
  constraint (extends_object T) or StructuralPreconditionError ;;
  constraint (extends_object U) or StructuralPreconditionError ;;
  D <- ObjectSubtract T U ;;
  let I := inter D (Intersect U T) in
  Ok (Pick I (keyof I)).

(** [Merge<T extends object, U extends object,
      I = ObjectSubtract<T, U> & Intersect<U, T> & ObjectSubtract<U, T>>
      = Pick<I, keyof I>] *)
Definition Merge (T U : ty) : result :=
  constraint (extends_object T) or StructuralPreconditionError ;;
  constraint (extends_object U) or StructuralPreconditionError ;;
  D <- ObjectSubtract T U ;;
  E <- ObjectSubtract U T ;;
  let I := inter (inter D (Intersect U T)) E in
  Ok (Pick I (keyof I)).

(** The property [k?: never]. *)
Definition impossible : prop := mapped true false (req never) never.

(** [_Without<FirstType, SecondType> =
      { [KeyType in Exclude<keyof FirstType, keyof SecondType>]?: never }] *)
Definition _Without (FirstType SecondType : ty) : ty :=
  [AObj (map (fun k => (k, impossible))
           (keys_of (Exclude (keyof FirstType) (keyof SecondType))))].

(** [MergeExclusive<FirstType, SecondType> =
      (FirstType | SecondType) extends object
        ? (_Without<FirstType, SecondType> & SecondType)
          | (_Without<SecondType, FirstType> & FirstType)
        : FirstType | SecondType] *)
Definition MergeExclusive (FirstType SecondType : ty) : result :=
  if extends_object (union FirstType SecondType) then
    Ok (union (inter (_Without FirstType SecondType) SecondType)
              (inter (_Without SecondType FirstType) FirstType))
  else Ok (union FirstType SecondType).

(** ** The documented examples *)

Definition Props : ty :=
  TRecord [(KName "name", req TString); (KName "age", req TNumber);
           (KName "visible", req TBoolean)].

Definition NewProps : ty :=
  TRecord [(KName "age", req TString); (KName "other", req TString)].

(** A record schema with named fields, and a set of names as a union of
    string literals. *)
Definition named (fs : list (string * prop)) : props :=
  map (fun nf => (KName (fst nf), snd nf)) fs.

Definition Rec (fs : list (string * prop)) : ty := TRecord (named fs).

Definition Names (K : list string) : ty := map ALit K.

(** What [Pick<never, keyof never>] evaluates to: every key is mapped to
    [never]. *)
Definition never_record : ty :=
  TRecord [(KString, req never); (KNumber, req never); (KSymbol, req never)].

(** ** Statements about every field, at every nesting depth *)

(** [p] holds of every property of every record reachable through
    property types, array elements and union alternatives. *)
Fixpoint all_fields_alt (p : prop -> bool) (a : alt) : bool :=
  match a with
  | AArr _ e => forallb (all_fields_alt p) e
  | AObj fs =>
      forallb (fun f : key * prop =>
                 p (snd f) && forallb (all_fields_alt p) (shape (snd f)))
        fs
  | AIface _ _ e => forallb (all_fields_alt p) e
  | _ => true
  end.

Definition all_fields (p : prop -> bool) (t : ty) : bool :=
  forallb (all_fields_alt p) t.


Definition admits_undefined (f : prop) : bool :=
  existsb is_undefined (shape f).


(** The [?] flags of the fields of a record type, in order. *)
Definition optional_flags (t : ty) : list (list (key * bool)) :=
  map (fun a => map (fun f : key * prop => (fst f, optional (snd f)))
                 (props_of a)) t.

Definition name_in (n : string) (K : list string) : bool :=
  existsb (String.eqb n) K.

(** An instance that supplies a value other than [undefined] for exactly
    the keys in [present] can conform to the record alternative [v]: each
    supplied key that [v] declares has a type with an alternative other
    than [undefined], and each required property of [v] is supplied. *)
Definition conforms (present : list key) (v : alt) : bool :=
  forallb (fun k => match lookup k (props_of v) with
                    | Some f => existsb (fun a => negb (is_undefined a)) (shape f)
                    | None => true
                    end) present
  && forallb (fun f : key * prop =>
                optional (snd f) || existsb (key_eqb (fst f)) present)
       (props_of v).

(** The documented examples of the deep transforms. *)
Definition NestedNullable : ty :=
  TRecord
    [(KName "first",
      opt [null;
           AObj [(KName "second",
                  opt [null;
                       AObj [(KName "name",
                              opt [APrim PString; null; undefined])]])]])].


(** ** Auxiliary notions used in the proofs *)

(** The fused step of [DeepRequired] and [DeepNonNullable]: drop the
    alternatives selected by [skip], transform the others with [g]. *)
Definition stripped (skip : alt -> bool) (g : alt -> ty) (x : alt) : ty :=
  if skip x then never else g x.

(** The filter that [dedup] applies after keeping [y]. *)
Definition differs (y b : alt) : bool := negb (alt_eqb y b).

(** Alternatives that [DeepPartial] widens with [undefined]. *)
Definition is_leaf (a : alt) : bool :=
  match a with APrim _ | ALit _ => true | _ => false end.

(** In a union produced by [DeepPartial], [undefined] stands before the
    first widened alternative or right after it. *)
Fixpoint guarded (l : ty) : bool :=
  match l with
  | [] => true
  | y :: r =>
      if is_undefined y then true
      else if is_leaf y then
             match r with y' :: _ => is_undefined y' | [] => false end
      else guarded r
  end.

(** Nothing is left for [DeepReadonly] to change in the arrays: every
    array is a [ReadonlyArray], and every array interface has [readonly] on
    all of its members. *)
Fixpoint settled_alt (a : alt) : bool :=
  match a with
  | AArr ro e => ro && forallb settled_alt e
  | AObj fs =>
      forallb (fun f : key * prop => forallb settled_alt (shape (snd f))) fs
  | AIface r _ e => r && forallb settled_alt e
  | _ => true
  end.

(** The fields of [Props], by name. *)
Definition PropsFields : list (string * prop) :=
  [("name", req TString); ("age", req TNumber); ("visible", req TBoolean)].



(* ================================================================== *)
(** * 5b. Further aliases of [basic.ts] and notions for their properties *)
(* ================================================================== *)

(** [FunctionKeys<ObjectType extends object> =
      { [K in keyof ObjectType]:
          ObjectType[K] extends Function ? K : never }[keyof ObjectType]] *)
Definition FunctionKeys (ObjectType : ty) : result :=
  constraint (extends_object ObjectType) or StructuralPreconditionError ;;
  Ok (value_keys (fun t => ty_extends t TFunction) ObjectType).

(** [NonFunctionKeys<ObjectType extends object> =
      { [K in keyof ObjectType]:
          ObjectType[K] extends Function ? never : K }[keyof ObjectType]] *)
Definition NonFunctionKeys (ObjectType : ty) : result :=
  constraint (extends_object ObjectType) or StructuralPreconditionError ;;
  Ok (value_keys (fun t => negb (ty_extends t TFunction)) ObjectType).

(** The example of the doc comments of [FunctionKeys]:
    [{ name: string; setName: (name: string) => void }]. *)
Definition MixedProps : ty :=
  Rec [("name", req TString); ("setName", req TFunction)].

(** Every array reachable through property types, array elements and
    union alternatives is a [ReadonlyArray], or the interface that extends
    it. *)
Fixpoint arrays_readonly_alt (a : alt) : bool :=
  match a with
  | AArr ro e => ro && forallb arrays_readonly_alt e
  | AObj fs =>
      forallb (fun f : key * prop =>
                 forallb arrays_readonly_alt (shape (snd f))) fs
  | AIface _ _ e => forallb arrays_readonly_alt e
  | _ => true
  end.

Definition arrays_readonly (t : ty) : bool := forallb arrays_readonly_alt t.

(** A union of primitives and string literals. *)
Definition primitives_only (V : ty) : bool := forallb is_leaf V.

(** [x] is one of the alternatives of [V], or a string literal when
    [string] is. *)
Definition among (V : ty) (x : alt) : bool :=
  mem x V || (is_literal x && mem (APrim PString) V).

(** The alternative [_Without<F, S> & S] of [MergeExclusive<F, S>] for two
    records: the names that only [F] has, each as [k?: never], followed by
    the fields of [S]. *)
Definition exclusive_variant (fs gs : list (string * prop)) : alt :=
  AObj (map (fun k => (k, impossible))
          (keys_of (Exclude (Names (map fst fs)) (Names (map fst gs))))
        ++ named gs).

(** An instance may give a value to the field: its type has an alternative
    other than [undefined]. *)
Definition suppliable (f : prop) : bool :=
  existsb (fun a => negb (is_undefined a)) (shape f).

(** The tests [A extends undefined] of [NonUndefined] and
    [T extends null | undefined] of [NonNullable], on one alternative. *)
Definition skip_undefined (x : alt) : bool := ty_extends [x] TUndefined.
Definition skip_nullish (x : alt) : bool := ty_extends [x] [null; undefined].

(* ================================================================== *)
(** * 6. Equality of types is decidable *)
(* ================================================================== *)

Lemma prim_eqb_spec p q : prim_eqb p q = true <-> p = q.
Proof. destruct p, q; simpl; split; congruence. Qed.

Lemma key_eqb_spec k l : key_eqb k l = true <-> k = l.
Proof.
  destruct k, l; simpl; try (split; congruence).
  rewrite String.eqb_eq. split; congruence.
Qed.

Lemma list_eqb_spec (A : Type) (eqb : A -> A -> bool) (l : list A) :
  Forall (fun x => forall y, eqb x y = true <-> x = y) l ->
  forall m, list_eqb eqb l m = true <-> l = m.
Proof.
  induction 1 as [|x l Hx _ IH]; intros [|y m]; simpl;
    try (split; congruence).
  rewrite andb_true_iff, Hx, IH. split.
  - intros [-> ->]; reflexivity.
  - intros E; inversion E; auto.
Qed.

Lemma alt_eqb_spec a : forall b, alt_eqb a b = true <-> a = b.
Proof.
  induction a as [p|s| |ro e IH|fs IH|r o e IH] using alt_nested_ind;
    intros [q|t| |ro' e'|gs|r' o' e']; simpl; try (split; congruence).
  - rewrite prim_eqb_spec. split; congruence.
  - rewrite String.eqb_eq. split; congruence.
  - rewrite andb_true_iff, Bool.eqb_true_iff, (list_eqb_spec _ _ _ IH).
    split; [intros [-> ->]; reflexivity | intros E; inversion E; auto].
  - rewrite list_eqb_spec; [split; congruence|].
    clear gs. induction IH as [|[k f] fs Hf _ IHfs]; constructor; auto.
    intros [l g]. simpl.
    rewrite !andb_true_iff, key_eqb_spec, (list_eqb_spec _ _ _ Hf),
      !Bool.eqb_true_iff.
    destruct f, g; simpl. split.
    + intros [[[-> ->] ->] ->]; reflexivity.
    + intros E; inversion E; auto.
  - rewrite !andb_true_iff, !Bool.eqb_true_iff, (list_eqb_spec _ _ _ IH).
    split; [intros [[-> ->] ->]; reflexivity | intros E; inversion E; auto].
Qed.

Lemma alt_eqb_refl a : alt_eqb a a = true.
Proof. apply alt_eqb_spec; reflexivity. Qed.

Lemma alt_eqb_neq a b : a <> b -> alt_eqb a b = false.
Proof.
  intros N. destruct (alt_eqb a b) eqn:E; [|reflexivity].
  apply alt_eqb_spec in E. contradiction.
Qed.


(* ================================================================== *)
(** * 7. Unions as duplicate-free lists *)
(* ================================================================== *)

Lemma mem_In a t : mem a t = true <-> In a t.
Proof.
  unfold mem. rewrite existsb_exists. split.
  - intros [x [Hx E]]. apply alt_eqb_spec in E. subst. exact Hx.
  - intros H. exists a. split; [exact H | apply alt_eqb_refl].
Qed.

Lemma neqb_alt a b : negb (alt_eqb a b) = true <-> a <> b.
Proof.
  rewrite negb_true_iff. split.
  - intros E ->. rewrite alt_eqb_refl in E. discriminate.
  - apply alt_eqb_neq.
Qed.

Lemma filter_id (A : Type) (p : A -> bool) (l : list A) :
  (forall x, In x l -> p x = true) -> filter p l = l.
Proof.
  induction l as [|x l IH]; simpl; intros H; [reflexivity|].
  rewrite (H x (or_introl eq_refl)). f_equal. apply IH. auto.
Qed.

Lemma filter_comm (A : Type) (p q : A -> bool) (l : list A) :
  filter p (filter q l) = filter q (filter p l).
Proof.
  induction l as [|x l IH]; simpl; [reflexivity|].
  destruct (p x) eqn:Ep, (q x) eqn:Eq; simpl; rewrite ?Ep, ?Eq, IH;
    reflexivity.
Qed.

Lemma dedup_In a t : In a (dedup t) <-> In a t.
Proof.
  induction t as [|x t IH]; simpl; [tauto|].
  rewrite filter_In, neqb_alt, IH.
  destruct (alt_eqb x a) eqn:E.
  - apply alt_eqb_spec in E. tauto.
  - assert (x <> a) by (intros ->; rewrite alt_eqb_refl in E; discriminate).
    tauto.
Qed.

Lemma NoDup_filter (A : Type) (p : A -> bool) (l : list A) :
  NoDup l -> NoDup (filter p l).
Proof.
  induction 1 as [|x l Hx _ IH]; simpl; [constructor|].
  destruct (p x); [constructor|]; auto.
  rewrite filter_In. tauto.
Qed.

Lemma dedup_NoDup t : NoDup (dedup t).
Proof.
  induction t as [|x t IH]; simpl; constructor.
  - rewrite filter_In, neqb_alt. tauto.
  - apply NoDup_filter, IH.
Qed.

Lemma dedup_id t : NoDup t -> dedup t = t.
Proof.
  induction 1 as [|x t Hx _ IH]; simpl; [reflexivity|].
  rewrite IH. f_equal. apply filter_id.
  intros y Hy. apply neqb_alt. congruence.
Qed.

Lemma dedup_filter p t : dedup (filter p t) = filter p (dedup t).
Proof.
  induction t as [|x t IH]; [reflexivity|].
  cbn [filter dedup]. destruct (p x) eqn:E.
  - cbn [dedup]. rewrite IH. f_equal. apply filter_comm.
  - rewrite IH, filter_comm. symmetry. apply filter_id.
    intros y Hy. apply filter_In in Hy. apply neqb_alt. intros ->.
    destruct Hy as [_ Hy]. congruence.
Qed.

Lemma alt_eqb_sym a b : alt_eqb a b = alt_eqb b a.
Proof.
  destruct (alt_eqb b a) eqn:E.
  - apply alt_eqb_spec in E. subst. apply alt_eqb_refl.
  - apply alt_eqb_neq. intros ->. rewrite alt_eqb_refl in E. discriminate.
Qed.

Lemma mem_cons b x s : mem b (x :: s) = alt_eqb x b || mem b s.
Proof. unfold mem. simpl. rewrite (alt_eqb_sym b x). reflexivity. Qed.

Lemma filter_not_mem_cons x s d :
  filter (fun b => negb (alt_eqb x b)) (filter (fun b => negb (mem b s)) d)
  = filter (fun b => negb (mem b (x :: s))) d.
Proof.
  induction d as [|y d IHd]; [reflexivity|].
  cbn [filter]. rewrite mem_cons.
  destruct (mem y s); cbn [negb].
  - rewrite orb_true_r. exact IHd.
  - rewrite orb_false_r. cbn [filter].
    destruct (alt_eqb x y); cbn [negb]; rewrite IHd; reflexivity.
Qed.

Lemma dedup_app s t :
  dedup (s ++ t) = dedup s ++ filter (fun b => negb (mem b s)) (dedup t).
Proof.
  induction s as [|x s IH].
  - simpl. symmetry. apply filter_id. reflexivity.
  - cbn [app dedup]. rewrite IH, filter_app, filter_not_mem_cons.
    reflexivity.
Qed.

Lemma forallb_same_members (A : Type) (p : A -> bool) (l l' : list A) :
  (forall x, In x l <-> In x l') -> forallb p l = forallb p l'.
Proof.
  intros H. destruct (forallb p l') eqn:E.
  - rewrite forallb_forall in *. intros x Hx. apply E, H, Hx.
  - destruct (forallb p l) eqn:E'; [|reflexivity].
    rewrite forallb_forall in E'. rewrite <- E. symmetry.
    apply forallb_forall. intros x Hx. apply E', H, Hx.
Qed.

(** [A | B] has the alternatives of [A] and of [B], less the string
    literals when [string] is among them. *)
Lemma In_absorb_literals a l :
  In a (absorb_literals l)
  <-> In a l /\ (In (APrim PString) l -> is_literal a = false).
Proof.
  unfold absorb_literals. destruct (mem (APrim PString) l) eqn:M.
  - apply mem_In in M. rewrite filter_In, negb_true_iff. tauto.
  - split; [|tauto]. intros H. split; [exact H|]. intros S.
    apply mem_In in S. congruence.
Qed.

Lemma In_union a A B :
  In a (union A B)
  <-> (In a A \/ In a B)
      /\ (In (APrim PString) A \/ In (APrim PString) B -> is_literal a = false).
Proof.
  unfold union. rewrite In_absorb_literals, !dedup_In, !in_app_iff. tauto.
Qed.

Lemma absorb_literals_id l :
  ~ In (APrim PString) l -> absorb_literals l = l.
Proof.
  intros H. unfold absorb_literals.
  destruct (mem (APrim PString) l) eqn:M; [|reflexivity].
  apply mem_In in M. contradiction.
Qed.

Lemma In_distribute g y t :
  In y (distribute g t) <-> exists a, In a t /\ In y (g a).
Proof. unfold distribute. rewrite dedup_In. apply in_flat_map. Qed.

Lemma NoDup_distribute g t : NoDup (distribute g t).
Proof. apply dedup_NoDup. Qed.

Lemma flat_map_fixed (g : alt -> ty) (l : ty) :
  (forall y, In y l -> g y = [y]) -> flat_map g l = l.
Proof.
  induction l as [|x l IH]; simpl; intros H; [reflexivity|].
  rewrite (H x (or_introl eq_refl)), IH; auto.
Qed.

(** A duplicate-free union whose alternatives are fixed by [g] is fixed by
    the distribution of [g]. *)
Lemma distribute_fixed g l :
  NoDup l -> (forall y, In y l -> g y = [y]) -> distribute g l = l.
Proof.
  intros N H. unfold distribute. rewrite flat_map_fixed by exact H.
  apply dedup_id, N.
Qed.

Lemma distribute_idem g t :
  (forall a, In a t -> forall y, In y (g a) -> g y = [y]) ->
  distribute g (distribute g t) = distribute g t.
Proof.
  intros H. apply distribute_fixed; [apply NoDup_distribute|].
  intros y Hy. apply In_distribute in Hy. destruct Hy as [a [Ha Hy]]. eauto.
Qed.

Lemma existsb_is_undefined t : existsb is_undefined t = true <-> In undefined t.
Proof.
  rewrite existsb_exists. split.
  - intros [x [Hx E]]. destruct x as [[]| | | | |]; try discriminate. exact Hx.
  - intros H. exists undefined. auto.
Qed.

Lemma add_undefined_In t : In undefined (add_undefined t).
Proof.
  unfold add_undefined. destruct (existsb is_undefined t) eqn:E.
  - apply existsb_is_undefined, E.
  - apply in_or_app. right. left. reflexivity.
Qed.

Lemma add_undefined_idem t : add_undefined (add_undefined t) = add_undefined t.
Proof.
  unfold add_undefined at 1.
  rewrite (proj2 (existsb_is_undefined _) (add_undefined_In t)). reflexivity.
Qed.

Lemma NoDup_add_undefined t : NoDup t -> NoDup (add_undefined t).
Proof.
  intros N. unfold add_undefined. destruct (existsb is_undefined t) eqn:E; auto.
  apply NoDup_app; auto.
  - constructor; [simpl; tauto | constructor].
  - intros x Hx [<-|[]]. apply existsb_is_undefined in Hx. congruence.
Qed.

(** If [g] keeps [undefined] and fixes [l], it fixes [l | undefined]. *)
Lemma distribute_add_undefined g l :
  g undefined = [undefined] ->
  distribute g l = l -> distribute g (add_undefined l) = add_undefined l.
Proof.
  intros Hu Hl. unfold add_undefined.
  destruct (existsb is_undefined l) eqn:E; [exact Hl|].
  unfold distribute in *. rewrite flat_map_app, dedup_app, Hl. simpl.
  rewrite Hu. simpl. f_equal.
  destruct (mem undefined (flat_map g l)) eqn:M; [|reflexivity].
  apply mem_In in M. rewrite <- dedup_In, Hl in M.
  apply existsb_is_undefined in M. congruence.
Qed.

(** A transform that keeps [undefined] commutes with reading, up to the
    [undefined] that an optional property admits anyway. *)
Lemma add_undefined_distribute (g : alt -> ty) s :
  g undefined = [undefined] ->
  add_undefined (distribute g (add_undefined s))
  = add_undefined (distribute g s).
Proof.
  intros Hu. unfold add_undefined at 2.
  destruct (existsb is_undefined s); [reflexivity|].
  unfold distribute. rewrite flat_map_app, dedup_app. cbn [flat_map].
  rewrite Hu. cbn [app dedup filter].
  destruct (mem undefined (flat_map g s)) eqn:M; cbn [negb].
  - rewrite app_nil_r. reflexivity.
  - unfold add_undefined.
    assert (E : existsb is_undefined (dedup (flat_map g s)) = false).
    { destruct (existsb is_undefined (dedup (flat_map g s))) eqn:E;
        [|reflexivity].
      apply existsb_is_undefined in E.
      apply (proj1 (dedup_In _ _)), (proj2 (mem_In _ _)) in E. congruence. }
    rewrite E.
    rewrite (proj2 (existsb_is_undefined _)); [reflexivity|].
    apply in_or_app. right. left. reflexivity.
Qed.

Lemma remove_undefined_id t :
  ~ In undefined t -> remove_undefined t = t.
Proof.
  intros H. apply filter_id. intros x Hx.
  destruct x as [[]| | | | |]; try reflexivity. contradiction.
Qed.

(* ================================================================== *)
(** * 8. Assignability *)
(* ================================================================== *)

Lemma In_read x (f : prop) : In x (shape f) -> In x (read f).
Proof.
  unfold read, add_undefined. intros H.
  destruct (optional f); [|exact H].
  destruct (existsb is_undefined (shape f)); [exact H|].
  apply in_or_app. left. exact H.
Qed.

Lemma has_key_self (g : key * prop) fs : In g fs -> has_key (fst g) fs = true.
Proof.
  intros H. apply existsb_exists. exists g. split; [exact H|].
  apply key_eqb_spec. reflexivity.
Qed.

(** A record has a property in common with every non-empty part of it. *)
Lemma common_property_incl fs gs :
  gs <> [] -> incl gs fs -> common_property fs gs = true.
Proof.
  intros N H. destruct gs as [|g gs]; [congruence|].
  apply existsb_exists. exists g. split; [apply H; left; reflexivity|].
  apply has_key_self. left. reflexivity.
Qed.

Lemma weak_rule_incl fs gs :
  incl gs fs ->
  negb (weak gs) || no_props fs || common_property fs gs = true.
Proof.
  intros H. destruct gs as [|g gs]; [reflexivity|].
  rewrite (common_property_incl fs (g :: gs)) by (congruence || exact H).
  apply orb_true_r.
Qed.

Lemma alt_extends_refl a : alt_extends a a = true.
Proof.
  induction a as [p|s| |ro e IH|fs IH|r o e IH] using alt_nested_ind; simpl.
  - destruct p; reflexivity.
  - apply String.eqb_refl.
  - reflexivity.
  - destruct ro; simpl; apply forallb_forall; intros x Hx;
      apply existsb_exists; exists x; (split; [exact Hx|]);
      rewrite Forall_forall in IH; auto.
  - rewrite weak_rule_incl by apply incl_refl. rewrite andb_true_r.
    apply forallb_forall. intros g Hg. apply orb_true_iff. left.
    apply existsb_exists. exists g. split; [exact Hg|].
    rewrite (proj2 (key_eqb_spec _ _) eq_refl). simpl.
    destruct (optional (snd g)) eqn:Eo; simpl;
      apply forallb_forall; intros x Hx; apply existsb_exists; exists x;
      (split; [apply In_read, Hx|]);
      rewrite Forall_forall in IH; specialize (IH g Hg);
      rewrite Forall_forall in IH; auto.
  - destruct o; simpl; apply forallb_forall; intros x Hx;
      apply existsb_exists; exists x; (split; [exact Hx|]);
      rewrite Forall_forall in IH; auto.
Qed.

Lemma ty_extends_refl t : ty_extends t t = true.
Proof.
  apply forallb_forall. intros x Hx. apply existsb_exists. exists x.
  split; [exact Hx | apply alt_extends_refl].
Qed.

Lemma ty_extends_member a t : In a t -> ty_extends [a] t = true.
Proof.
  intros H. unfold ty_extends. simpl. rewrite andb_true_r.
  apply existsb_exists. exists a. split; [exact H | apply alt_extends_refl].
Qed.

Lemma ty_extends_undefined x : ty_extends [x] TUndefined = is_undefined x.
Proof. destruct x as [[]| | | | |]; reflexivity. Qed.

Lemma ty_extends_nullish x : ty_extends [x] [null; undefined] = is_nullish x.
Proof. destruct x as [[]| | | | |]; reflexivity. Qed.


Lemma flat_map_nil (A B : Type) (g : A -> list B) (l : list A) :
  (forall x, In x l -> g x = []) -> flat_map g l = [].
Proof.
  induction l as [|x l IH]; simpl; intros H; [reflexivity|].
  rewrite (H x (or_introl eq_refl)), IH; auto.
Qed.

(** [Exclude<T, T>] is [never]; [Extract] of a single alternative by
    itself keeps it. *)
Lemma Exclude_self T : Exclude T T = never.
Proof.
  unfold Exclude, distribute. rewrite flat_map_nil; [reflexivity|].
  intros x Hx. rewrite (ty_extends_member _ _ Hx). reflexivity.
Qed.

Lemma Extract_self a : Extract [a] [a] = [a].
Proof.
  unfold Extract, distribute. cbn [flat_map].
  rewrite (ty_extends_member a [a] (or_introl eq_refl)). reflexivity.
Qed.

(* ================================================================== *)
(** * 9. [union.ts]: Complement *)
(* ================================================================== *)

(** Whatever subset is passed, [Complement] evaluates to [never]. *)
Lemma Complement_is_never A A1 :
  ty_extends A1 A = true -> Complement A A1 = Ok never.
Proof.
  intros H. unfold Complement, requires, Substract. rewrite H, Exclude_self.
  reflexivity.
Qed.

(** C1 (at the documented example).  The doc comment of [Complement]
    expects ["1"] for [Complement<'1' | '2' | '3', '2' | '3'>]; the alias
    evaluates to [never], the empty set of names. *)
Theorem Complement_documented_example :
  Complement (Names ["1"; "2"; "3"]) (Names ["2"; "3"]) = Ok never
  /\ Complement (Names ["1"; "2"; "3"]) (Names ["2"; "3"]) <> Ok (Names ["1"])
  /\ Substract (Names ["1"; "2"; "3"]) (Names ["2"; "3"]) = Names ["1"].
Proof. repeat split; try reflexivity. discriminate. Qed.

(* ================================================================== *)
(** * 10. [object.ts]: MergeOverride and Merge *)
(* ================================================================== *)

Lemma Pick_record fs K :
  Pick (TRecord fs) K
  = TRecord (filter (fun f : key * prop => in_keys (fst f) K) fs).
Proof. reflexivity. Qed.

Lemma keyof_record fs : keyof (TRecord fs) = map key_alt (names fs).
Proof. unfold keyof, TRecord. simpl. apply filter_id. reflexivity. Qed.

Lemma in_keys_names k fs : In k (names fs) -> in_keys k (map key_alt (names fs)) = true.
Proof. intros H. apply mem_In, in_map, H. Qed.

Lemma Pick_all fs : Pick (TRecord fs) (keyof (TRecord fs)) = TRecord fs.
Proof.
  rewrite Pick_record, keyof_record. unfold TRecord. do 2 f_equal.
  apply filter_id. intros [k f] H. apply in_keys_names.
  apply (in_map fst) in H. exact H.
Qed.

Lemma ObjectSubtract_self fs :
  ObjectSubtract (TRecord fs) (TRecord fs) = Ok (TRecord []).
Proof.
  unfold ObjectSubtract, Substract. rewrite Exclude_self. simpl.
  do 3 f_equal. induction fs as [|f fs IH]; [reflexivity | exact IH].
Qed.

Lemma inter_empty_record fs : inter (TRecord []) (TRecord fs) = TRecord fs.
Proof. destruct fs as [|f fs]; [reflexivity|].
  unfold inter, TRecord. simpl. do 2 f_equal.
  f_equal. apply filter_id. reflexivity.
Qed.

(** C4.  Merging a record with itself under override semantics gives the
    record back: [MergeOverride<T, T> = T] for every record type [T]. *)
Theorem MergeOverride_self (fs : props) :
  MergeOverride (TRecord fs) (TRecord fs) = Ok (TRecord fs).
Proof.
  unfold MergeOverride, Intersect. rewrite ObjectSubtract_self.
  replace (Extract (TRecord fs) (TRecord fs)) with (TRecord fs)
    by (symmetry; apply Extract_self).
  cbn [extends_object forallb TRecord alt_is_object andb requires bind].
  fold (TRecord []). fold (TRecord fs).
  rewrite !inter_empty_record, Pick_all. reflexivity.
Qed.

(** When [U] is not assignable to [T], [Intersect<U, T>] is [never], the
    intersection [I] is [never], and both merges evaluate to
    [Pick<never, keyof never>]. *)
Lemma Intersect_unassignable a b :
  alt_extends a b = false -> Intersect [a] [b] = never.
Proof.
  intros H. unfold Intersect, Extract, distribute, ty_extends. simpl.
  rewrite H. reflexivity.
Qed.

Lemma inter_never_r T : T <> never -> inter T never = never.
Proof.
  intros H. unfold inter. destruct T as [|a T]; [contradiction|].
  simpl. rewrite flat_map_nil; reflexivity.
Qed.

Lemma MergeOverride_unassignable fs gs :
  alt_extends (AObj gs) (AObj fs) = false ->
  MergeOverride (TRecord fs) (TRecord gs) = Ok never_record.
Proof.
  intros H. unfold MergeOverride, ObjectSubtract. simpl.
  unfold TRecord. rewrite (Intersect_unassignable _ _ H).
  rewrite inter_never_r by discriminate. reflexivity.
Qed.

Lemma Merge_unassignable fs gs :
  alt_extends (AObj gs) (AObj fs) = false ->
  Merge (TRecord fs) (TRecord gs) = Ok never_record.
Proof.
  intros H. unfold Merge, ObjectSubtract. simpl.
  unfold TRecord. rewrite (Intersect_unassignable _ _ H).
  rewrite inter_never_r by discriminate. reflexivity.
Qed.

(** C2 (at the documented example).  For
    [T = {name: string; age: number; visible: boolean}] and
    [U = {age: string; other: string}] the doc comment expects
    [{name: string; age: string; visible: boolean}].  [U] is not assignable
    to [T], so [MergeOverride<T, U>] evaluates to [Pick<never, keyof never>],
    which has none of the three fields; the sibling [ObjectIntersect<U, T>]
    gives the [{age: string}] that the merge was meant to use. *)
Theorem MergeOverride_documented_example :
  MergeOverride Props NewProps = Ok never_record
  /\ MergeOverride Props NewProps
     <> Ok (Rec [("name", req TString); ("age", req TString);
                 ("visible", req TBoolean)])
  /\ Intersect NewProps Props = never
  /\ ObjectIntersect NewProps Props = Ok (Rec [("age", req TString)]).
Proof. repeat split; try reflexivity. discriminate. Qed.

(** C3 (at the documented example).  For the same [T] and [U] the expected
    [Merge<T, U>] has the fields [name], [age], [visible] and [other];
    [Merge<T, U>] evaluates to [Pick<never, keyof never>], whose keys are
    not the union of the keys of [T] and [U]. *)
Theorem Merge_documented_example :
  Merge Props NewProps = Ok never_record
  /\ Merge Props NewProps
     <> Ok (Rec [("name", req TString); ("age", req TString);
                 ("visible", req TBoolean); ("other", req TString)])
  /\ keyof never_record <> union (keyof Props) (keyof NewProps).
Proof. repeat split; try reflexivity; discriminate. Qed.

(* ================================================================== *)
(** * 11. Deep transforms: fixed points *)
(* ================================================================== *)

Lemma Forall_In (A : Type) (P : A -> Prop) (l : list A) (x : A) :
  Forall P l -> In x l -> P x.
Proof. intros H. rewrite Forall_forall in H. auto. Qed.

Lemma map_fixed (A : Type) (h : A -> A) (l : list A) :
  (forall x, In x l -> h (h x) = h x) -> map h (map h l) = map h l.
Proof.
  intros H. rewrite map_map. apply map_ext_in. exact H.
Qed.

(** ** DeepReadonly

    A mutable array becomes the interface [_DeepReadonlyArray], which the
    transform does not fix: applied again, it takes the object branch and
    lists the members of the interface.  Everything else that the
    transform returns is fixed by it. *)

Lemma distribute_settles g t :
  Forall (fun a => forall y, In y (g a) -> forall z, In z (g y) -> g z = [z])
    t ->
  distribute g (distribute g (distribute g t))
  = distribute g (distribute g t).
Proof.
  intros H. apply distribute_idem. intros a Ha y Hy.
  apply In_distribute in Ha. destruct Ha as [a0 [Ha0 Ha]].
  apply (Forall_In _ _ _ _ H Ha0 a Ha y Hy).
Qed.

(** The object branch of [DeepReadonly] over a record that a mapped type
    [{ readonly [P in keyof T]: G<T[P]> }] has produced. *)
Lemma DeepReadonly_alt_object (G : ty -> ty) (fs : props) :
  DeepReadonly_alt
    (AObj (map (fun f : key * prop =>
                  (fst f,
                   mapped (optional (snd f)) true (snd f) (G (shape (snd f)))))
             fs))
  = [AObj (map (fun f : key * prop =>
                  (fst f,
                   mapped (optional (snd f)) true (snd f)
                     (DeepReadonly (G (shape (snd f))))))
             fs)].
Proof.
  cbn [DeepReadonly_alt]. do 2 f_equal. rewrite map_map.
  apply map_ext. intros [k f]. cbn [fst snd]. f_equal.
  unfold mapped. cbn [shape optional readonly]. fold (DeepReadonly).
  destruct (optional f); [|reflexivity].
  f_equal. apply (add_undefined_distribute DeepReadonly_alt _ eq_refl).
Qed.

Lemma map_field_ext (G H : ty -> ty) (fs : props) :
  (forall f, In f fs -> G (shape (snd f)) = H (shape (snd f))) ->
  map (fun f : key * prop =>
         (fst f, mapped (optional (snd f)) true (snd f) (G (shape (snd f)))))
    fs
  = map (fun f : key * prop =>
           (fst f, mapped (optional (snd f)) true (snd f) (H (shape (snd f)))))
      fs.
Proof.
  intros E. apply map_ext_in. intros f Hf. rewrite (E f Hf). reflexivity.
Qed.

Lemma DeepReadonly_alt_fixed a :
  arrays_readonly_alt a = true ->
  forall y, In y (DeepReadonly_alt a) -> DeepReadonly_alt y = [y].
Proof.
  induction a as [p|s| |ro e IH|fs IH|r o e IH] using alt_nested_ind;
    intros R y Hy.
  - destruct Hy as [<-|[]]. reflexivity.
  - destruct Hy as [<-|[]]. reflexivity.
  - destruct Hy as [<-|[]]. reflexivity.
  - cbn [arrays_readonly_alt] in R. apply andb_true_iff in R.
    destruct R as [-> R]. rewrite forallb_forall in R.
    destruct Hy as [<-|[]]. cbn [DeepReadonly_alt mapped_elem].
    rewrite distribute_idem; [reflexivity|].
    intros a Ha. apply (Forall_In _ _ _ _ IH Ha), R, Ha.
  - cbn [arrays_readonly_alt] in R. rewrite forallb_forall in R.
    destruct Hy as [<-|[]].
    rewrite (DeepReadonly_alt_object (distribute DeepReadonly_alt)).
    do 2 f_equal.
    apply (map_field_ext
             (fun t => DeepReadonly (distribute DeepReadonly_alt t))
             (distribute DeepReadonly_alt)).
    intros f Hf. specialize (R f Hf). rewrite forallb_forall in R.
    apply distribute_idem. intros a Ha.
    apply (Forall_In _ _ _ _ (Forall_In _ _ _ _ IH Hf) Ha), R, Ha.
  - cbn [arrays_readonly_alt] in R. rewrite forallb_forall in R.
    destruct Hy as [<-|[]]. cbn [DeepReadonly_alt mapped_elem].
    rewrite distribute_idem; [reflexivity|].
    intros a Ha. apply (Forall_In _ _ _ _ IH Ha), R, Ha.
Qed.

Lemma DeepReadonly_idempotent S :
  arrays_readonly S = true -> DeepReadonly (DeepReadonly S) = DeepReadonly S.
Proof.
  intros R. unfold arrays_readonly in R. rewrite forallb_forall in R.
  apply distribute_idem. intros a Ha. apply DeepReadonly_alt_fixed, R, Ha.
Qed.

(** After two applications nothing is left to change. *)
Lemma DeepReadonly_alt_settles a :
  forall y, In y (DeepReadonly_alt a) ->
  forall z, In z (DeepReadonly_alt y) -> DeepReadonly_alt z = [z].
Proof.
  induction a as [p|s| |ro e IH|fs IH|r o e IH] using alt_nested_ind;
    intros y Hy z Hz.
  - destruct Hy as [<-|[]]. destruct Hz as [<-|[]]. reflexivity.
  - destruct Hy as [<-|[]]. destruct Hz as [<-|[]]. reflexivity.
  - destruct Hy as [<-|[]]. destruct Hz as [<-|[]]. reflexivity.
  - destruct ro; destruct Hy as [<-|[]]; destruct Hz as [<-|[]];
      cbn [DeepReadonly_alt mapped_elem];
      rewrite (distribute_settles _ _ IH); reflexivity.
  - destruct Hy as [<-|[]].
    rewrite (DeepReadonly_alt_object (distribute DeepReadonly_alt)) in Hz.
    destruct Hz as [<-|[]].
    rewrite (DeepReadonly_alt_object
               (fun t => DeepReadonly (distribute DeepReadonly_alt t))).
    do 2 f_equal.
    apply (map_field_ext
             (fun t => DeepReadonly
                         (DeepReadonly (distribute DeepReadonly_alt t)))
             (fun t => DeepReadonly (distribute DeepReadonly_alt t))).
    intros f Hf.
    apply (distribute_settles _ _ (Forall_In _ _ _ _ IH Hf)).
  - destruct Hy as [<-|[]]. destruct Hz as [<-|[]].
    cbn [DeepReadonly_alt mapped_elem].
    rewrite (distribute_settles _ _ IH). reflexivity.
Qed.

Lemma DeepReadonly_settles S :
  DeepReadonly (DeepReadonly (DeepReadonly S)) = DeepReadonly (DeepReadonly S).
Proof.
  apply distribute_settles. apply Forall_forall. intros a _.
  apply DeepReadonly_alt_settles.
Qed.

(** ** DeepRequired and DeepNonNullable

    Both have the same form: the alternatives selected by [skip]
    ([undefined], resp. [null] and [undefined]) are dropped from the type
    of a property or element, the rest is transformed, and the property
    loses its [?]. *)

Section strip_transform.
Variable skip : alt -> bool.
Variable g : alt -> ty.

Hypothesis Hprim : forall p, g (APrim p) = [APrim p].
Hypothesis Hlit : forall s, g (ALit s) = [ALit s].
Hypothesis Hfun : g AFun = [AFun].
Hypothesis Harr : forall ro e,
  g (AArr ro e)
  = [AArr ro (if ro then mapped_elem false true (distribute (stripped skip g) e)
              else distribute (stripped skip g) e)].
Hypothesis Hobj : forall fs,
  g (AObj fs)
  = [AObj (map (fun f : key * prop =>
                  (fst f,
                   mapped false (readonly (snd f)) (snd f)
                     (distribute (stripped skip g) (shape (snd f)))))
             fs)].
Hypothesis Hiface : forall r o e,
  g (AIface r o e)
  = [AIface r false (mapped_elem false true (distribute (stripped skip g) e))].
Hypothesis Hskip_undefined : skip undefined = true.
Hypothesis Hskip_prim : forall x, skip x = true -> exists p, x = APrim p.

Lemma strip_image_prim a y p : In y (g a) -> y = APrim p -> a = APrim p.
Proof.
  destruct a as [q|s| |ro e|fs|r o e];
    rewrite ?Hprim, ?Hlit, ?Hfun, ?Harr, ?Hobj, ?Hiface;
    intros [<-|[]] E; try discriminate; exact E.
Qed.

Lemma strip_image_skip a y : In y (g a) -> skip y = true -> skip a = true.
Proof.
  intros Hy Hs. destruct (Hskip_prim _ Hs) as [p ->].
  rewrite (strip_image_prim _ _ _ Hy eq_refl). exact Hs.
Qed.

Lemma stripped_clean s y : In y (distribute (stripped skip g) s) -> skip y = false.
Proof.
  intros Hy. apply In_distribute in Hy. destruct Hy as [a [_ Hy]].
  unfold stripped in Hy. destruct (skip a) eqn:E; [destruct Hy|].
  destruct (skip y) eqn:E'; [|reflexivity].
  rewrite (strip_image_skip _ _ Hy E') in E. discriminate.
Qed.

Lemma stripped_no_undefined s : ~ In undefined (distribute (stripped skip g) s).
Proof.
  intros H. apply stripped_clean in H. congruence.
Qed.

Lemma stripped_remove_undefined s :
  remove_undefined (distribute (stripped skip g) s) = distribute (stripped skip g) s.
Proof. apply remove_undefined_id, stripped_no_undefined. Qed.

Lemma stripped_mapped ro (f : prop) s :
  mapped false ro f (distribute (stripped skip g) s)
  = Field (distribute (stripped skip g) s) false ro.
Proof.
  unfold mapped. rewrite stripped_remove_undefined.
  destruct (optional f); reflexivity.
Qed.

Lemma stripped_elem (ro : bool) s :
  (if ro then mapped_elem false true (distribute (stripped skip g) s)
   else distribute (stripped skip g) s) = distribute (stripped skip g) s.
Proof.
  destruct ro; [|reflexivity]. apply stripped_remove_undefined.
Qed.

(** The transformed type of a property or element is fixed by the
    transform, as soon as the transform fixes its own images. *)
Lemma stripped_idem s :
  Forall (fun a => forall y, In y (g a) -> g y = [y]) s ->
  distribute (stripped skip g) (distribute (stripped skip g) s) = distribute (stripped skip g) s.
Proof.
  intros IH. apply distribute_fixed; [apply NoDup_distribute|].
  intros y Hy. unfold stripped at 1. rewrite (stripped_clean _ _ Hy).
  apply In_distribute in Hy. destruct Hy as [a [Ha Hy]].
  unfold stripped in Hy. destruct (skip a); [destruct Hy|].
  apply (Forall_In _ _ _ _ IH Ha), Hy.
Qed.

Lemma strip_fixed a : forall y, In y (g a) -> g y = [y].
Proof.
  induction a as [p|s| |ro e IH|fs IH|r o e IH] using alt_nested_ind;
    intros y.
  - rewrite Hprim. intros [<-|[]]. apply Hprim.
  - rewrite Hlit. intros [<-|[]]. apply Hlit.
  - rewrite Hfun. intros [<-|[]]. apply Hfun.
  - rewrite Harr, stripped_elem. intros [<-|[]].
    rewrite Harr, stripped_elem, (stripped_idem _ IH). reflexivity.
  - rewrite Hobj. intros [<-|[]]. rewrite Hobj. do 2 f_equal.
    apply map_fixed. intros [k f] Hf. cbn [fst snd]. f_equal.
    rewrite !stripped_mapped. cbn [shape readonly].
    pose proof (stripped_idem _ (Forall_In _ _ _ _ IH Hf)) as E.
    cbn [snd] in E. f_equal. exact E.
  - rewrite Hiface, (stripped_elem true). intros [<-|[]].
    rewrite Hiface, (stripped_elem true), (stripped_idem _ IH). reflexivity.
Qed.

Lemma strip_idempotent S :
  distribute g (distribute g S) = distribute g S.
Proof. apply distribute_idem. intros a _. apply strip_fixed. Qed.

(** Every field of the result is required and free of the stripped
    alternatives. *)
Variable p : prop -> bool.
Hypothesis Hp : forall t ro,
  (forall y, In y t -> skip y = false) -> p (Field t false ro) = true.


End strip_transform.

Lemma is_undefined_prim x : is_undefined x = true -> exists p, x = APrim p.
Proof. destruct x; try discriminate. eauto. Qed.

Lemma is_nullish_prim x : is_nullish x = true -> exists p, x = APrim p.
Proof. destruct x; try discriminate. eauto. Qed.

Lemma DeepRequired_idempotent S : DeepRequired (DeepRequired S) = DeepRequired S.
Proof.
  apply (strip_idempotent (fun x => ty_extends [x] TUndefined));
    try reflexivity.
  - intros [] e; reflexivity.
  - intros x. rewrite ty_extends_undefined. apply is_undefined_prim.
Qed.

Lemma DeepNonNullable_idempotent S :
  DeepNonNullable (DeepNonNullable S) = DeepNonNullable S.
Proof.
  apply (strip_idempotent (fun x => ty_extends [x] [null; undefined]));
    try reflexivity.
  - intros [] e; reflexivity.
  - intros x. rewrite ty_extends_nullish. apply is_nullish_prim.
Qed.

(** ** DeepPartial

    A primitive alternative [p] becomes [p | undefined], so the images are
    not fixed one by one; the union as a whole is, because [undefined]
    already stands right after the first primitive (or before it). *)

Lemma is_undefined_eq y : is_undefined y = true -> y = undefined.
Proof. destruct y as [[]| | | | |]; try discriminate. reflexivity. Qed.

Lemma DeepPartial_alt_leaf y :
  is_leaf y = true ->
  DeepPartial_alt y = if is_undefined y then [y] else [y; undefined].
Proof. destruct y as [[]| | | | |]; try discriminate; reflexivity. Qed.

Lemma DeepPartial_alt_node a :
  is_leaf a = false ->
  exists y, DeepPartial_alt a = [y] /\ is_leaf y = false.
Proof.
  destruct a as [p|s| |[] e|fs|r o e]; try discriminate; intros _;
    eexists; split; reflexivity.
Qed.

Lemma filter_neq_notin y l :
  ~ In y l -> filter (fun b => negb (alt_eqb y b)) l = l.
Proof.
  intros H. apply filter_id. intros x Hx. apply neqb_alt. congruence.
Qed.

Lemma neq_undefined y : is_undefined y = false -> alt_eqb y undefined = false.
Proof.
  intros H. apply alt_eqb_neq. intros ->. discriminate.
Qed.

Lemma dedup_cons x l : dedup (x :: l) = x :: filter (differs x) (dedup l).
Proof. reflexivity. Qed.

Lemma filter_differs_keep y x l :
  y <> x -> filter (differs y) (x :: l) = x :: filter (differs y) l.
Proof.
  intros H. cbn [filter]. unfold differs at 1.
  rewrite (alt_eqb_neq _ _ H). reflexivity.
Qed.

Lemma filter_differs_drop y l :
  filter (differs y) (y :: l) = filter (differs y) l.
Proof.
  cbn [filter]. unfold differs at 1. rewrite alt_eqb_refl. reflexivity.
Qed.

Lemma filter_differs_notin y l : ~ In y l -> filter (differs y) l = l.
Proof. apply filter_neq_notin. Qed.

Lemma not_undefined y : is_undefined y = false -> y <> undefined.
Proof. intros H ->. discriminate. Qed.

Section partial_union.
Lemma partial_undefined : DeepPartial_alt undefined = [undefined].
Proof. reflexivity. Qed.

Lemma partial_leaf y :
  is_leaf y = true -> is_undefined y = false -> DeepPartial_alt y = [y; undefined].
Proof.
  intros L U. rewrite (DeepPartial_alt_leaf _ L), U. reflexivity.
Qed.

Lemma partial_after_undefined l :
  NoDup l -> ~ In undefined l ->
  (forall y, In y l -> is_leaf y = false -> DeepPartial_alt y = [y]) ->
  filter (differs undefined) (dedup (flat_map DeepPartial_alt l)) = l.
Proof.
  induction 1 as [|y l Hy N IH]; intros Hu Hfix; [reflexivity|].
  assert (Hyu : is_undefined y = false).
  { destruct (is_undefined y) eqn:E; [|reflexivity].
    apply is_undefined_eq in E. subst. destruct Hu. left. reflexivity. }
  assert (Hul : ~ In undefined l) by (intros H; apply Hu; right; exact H).
  assert (IH' : filter (differs undefined) (dedup (flat_map DeepPartial_alt l)) = l).
  { apply IH; [exact Hul|]. intros; apply Hfix; [right|]; assumption. }
  pose proof (not_undefined _ Hyu) as Ny.
  cbn [flat_map]. destruct (is_leaf y) eqn:L.
  - rewrite (partial_leaf _ L Hyu). cbn [app]. rewrite !dedup_cons, IH'.
    rewrite (filter_differs_keep y undefined l Ny).
    rewrite (filter_differs_notin _ _ Hy).
    rewrite filter_differs_keep by congruence.
    rewrite filter_differs_drop, (filter_differs_notin _ _ Hul).
    reflexivity.
  - rewrite (Hfix y (or_introl eq_refl) L). cbn [app].
    rewrite dedup_cons, filter_differs_keep by congruence.
    rewrite filter_comm, IH', (filter_differs_notin _ _ Hy). reflexivity.
Qed.

Lemma partial_guarded_fixed l :
  guarded l = true -> NoDup l ->
  (forall y, In y l -> is_leaf y = false -> DeepPartial_alt y = [y]) ->
  dedup (flat_map DeepPartial_alt l) = l.
Proof.
  induction l as [|y l IH]; intros G N Hfix; [reflexivity|].
  inversion N as [|? ? Hy N']; subst.
  assert (Hfix' : forall z, In z l -> is_leaf z = false -> DeepPartial_alt z = [z])
    by (intros; apply Hfix; [right|]; assumption).
  cbn [guarded] in G. cbn [flat_map].
  destruct (is_undefined y) eqn:U.
  - apply is_undefined_eq in U. subst y. rewrite partial_undefined. cbn [app].
    rewrite dedup_cons, (partial_after_undefined _ N' Hy Hfix').
    reflexivity.
  - pose proof (not_undefined _ U) as Ny. destruct (is_leaf y) eqn:L.
    + destruct l as [|y' l']; [discriminate|].
      apply is_undefined_eq in G. subst y'.
      inversion N' as [|? ? Hu N'']; subst.
      rewrite (partial_leaf _ L U). cbn [flat_map]. rewrite partial_undefined.
      cbn [app]. rewrite !dedup_cons.
      rewrite (partial_after_undefined _ N'' Hu)
        by (intros; apply Hfix'; [right|]; assumption).
      rewrite filter_differs_drop, (filter_differs_notin _ _ Hu).
      rewrite (filter_differs_notin _ _ Hy). reflexivity.
    + rewrite (Hfix y (or_introl eq_refl) L). cbn [app].
      rewrite dedup_cons, (IH G N' Hfix'), (filter_differs_notin _ _ Hy).
      reflexivity.
Qed.

Lemma guarded_filter y l :
  is_leaf y = false -> guarded l = true ->
  guarded (filter (differs y) l) = true.
Proof.
  intros Ly. induction l as [|x l IH]; intros G; [reflexivity|].
  cbn [guarded] in G. destruct (is_undefined x) eqn:U.
  - apply is_undefined_eq in U. subst x.
    rewrite filter_differs_keep by (intros ->; discriminate). reflexivity.
  - destruct (is_leaf x) eqn:L.
    + rewrite filter_differs_keep by (intros ->; congruence).
      cbn [guarded]. rewrite U, L.
      destruct l as [|x' l']; [discriminate|].
      apply is_undefined_eq in G. subst x'.
      rewrite filter_differs_keep by (intros ->; discriminate). reflexivity.
    + cbn [filter]. destruct (differs y x); [|auto].
      cbn [guarded]. rewrite U, L. auto.
Qed.

Lemma partial_image_guarded t : guarded (dedup (flat_map DeepPartial_alt t)) = true.
Proof.
  induction t as [|a t IH]; [reflexivity|].
  cbn [flat_map]. destruct (is_leaf a) eqn:L.
  - destruct (is_undefined a) eqn:U.
    + apply is_undefined_eq in U. subst a. rewrite partial_undefined. reflexivity.
    + rewrite (partial_leaf _ L U). cbn [app]. rewrite !dedup_cons.
      rewrite filter_differs_keep by (apply not_undefined, U).
      cbn [guarded]. rewrite U, L. reflexivity.
  - destruct (DeepPartial_alt_node _ L) as [y [E Ly]].
    rewrite E. cbn [app]. rewrite dedup_cons.
    cbn [guarded]. rewrite Ly.
    destruct (is_undefined y) eqn:U; [reflexivity|].
    apply guarded_filter; assumption.
Qed.

Lemma partial_idem t :
  Forall (fun a => forall y, In y (DeepPartial_alt a) -> is_leaf y = false -> DeepPartial_alt y = [y]) t ->
  distribute DeepPartial_alt (distribute DeepPartial_alt t) = distribute DeepPartial_alt t.
Proof.
  intros H. unfold distribute at 1.
  apply partial_guarded_fixed.
  - apply partial_image_guarded.
  - apply NoDup_distribute.
  - intros y Hy. apply In_distribute in Hy. destruct Hy as [a [Ha Hy]].
    apply (Forall_In _ _ _ _ H Ha), Hy.
Qed.
End partial_union.

Lemma DeepPartial_alt_leaf_image a y :
  is_leaf a = true -> In y (DeepPartial_alt a) -> is_leaf y = true.
Proof.
  intros L. rewrite (DeepPartial_alt_leaf _ L).
  destruct (is_undefined a); simpl; intros H;
    repeat (destruct H as [<-|H]; [auto|]); destruct H.
Qed.

Lemma DeepPartial_alt_fixed a :
  forall y, In y (DeepPartial_alt a) -> is_leaf y = false ->
            DeepPartial_alt y = [y].
Proof.
  induction a as [p|s| |ro e IH|fs IH|r o e IH] using alt_nested_ind;
    intros y Hy Ly.
  - rewrite (DeepPartial_alt_leaf_image (APrim p) y eq_refl Hy) in Ly.
    discriminate.
  - rewrite (DeepPartial_alt_leaf_image (ALit s) y eq_refl Hy) in Ly.
    discriminate.
  - destruct Hy as [<-|[]]. reflexivity.
  - pose proof (partial_idem _ IH) as E.
    destruct ro; destruct Hy as [<-|[]];
      cbn [DeepPartial_alt mapped_elem].
    + rewrite (distribute_add_undefined DeepPartial_alt _ eq_refl E).
      rewrite add_undefined_idem. reflexivity.
    + rewrite E. reflexivity.
  - destruct Hy as [<-|[]]. cbn [DeepPartial_alt]. do 2 f_equal.
    apply map_fixed. intros [k f] Hf. cbn [fst snd]. f_equal.
    pose proof (partial_idem _ (Forall_In _ _ _ _ IH Hf)) as E. cbn [snd] in E.
    unfold mapped. cbn [shape optional readonly]. f_equal.
    etransitivity; [|apply add_undefined_idem].
    apply f_equal, (distribute_add_undefined DeepPartial_alt _ eq_refl E).
  - pose proof (partial_idem _ IH) as E.
    destruct Hy as [<-|[]]. cbn [DeepPartial_alt mapped_elem].
    rewrite (distribute_add_undefined DeepPartial_alt _ eq_refl E).
    rewrite add_undefined_idem. reflexivity.
Qed.

Lemma DeepPartial_idempotent S : DeepPartial (DeepPartial S) = DeepPartial S.
Proof.
  apply partial_idem. apply Forall_forall. intros a _.
  apply DeepPartial_alt_fixed.
Qed.

(** ** Where DeepReadonly is not idempotent *)

Lemma forallb_false (A : Type) (p : A -> bool) (l : list A) :
  forallb p l = false <-> exists x, In x l /\ p x = false.
Proof.
  induction l as [|x l IH]; simpl.
  - split; [discriminate | intros [x [[] _]]].
  - rewrite andb_false_iff, IH. split.
    + intros [E|[y [Hy E]]]; eauto.
    + intros [y [[<-|Hy] E]]; eauto.
Qed.

Lemma In_add_undefined x t : In x t -> In x (add_undefined t).
Proof.
  unfold add_undefined. destruct (existsb is_undefined t); [auto|].
  intros H. apply in_or_app. left. exact H.
Qed.

Lemma add_undefined_inv x t :
  In x (add_undefined t) -> x = undefined \/ In x t.
Proof.
  unfold add_undefined. destruct (existsb is_undefined t); [auto|].
  intros H. apply in_app_or in H. destruct H as [H|[<-|[]]]; auto.
Qed.

Lemma In_mapped_optional (f : prop) ro x t :
  In x t -> In x (shape (mapped (optional f) ro f t)).
Proof.
  unfold mapped. cbn [shape]. destruct (optional f); [|auto].
  apply In_add_undefined.
Qed.

Lemma mapped_optional_inv (f : prop) ro x t :
  In x (shape (mapped (optional f) ro f t)) -> x = undefined \/ In x t.
Proof.
  unfold mapped. cbn [shape]. destruct (optional f); [|auto].
  apply add_undefined_inv.
Qed.

(** The result of [DeepReadonly] on a type with a mutable array has an
    array interface whose members are as declared. *)
Lemma DeepReadonly_alt_unsettled a :
  arrays_readonly_alt a = false ->
  exists y, In y (DeepReadonly_alt a) /\ settled_alt y = false.
Proof.
  induction a as [p|s| |ro e IH|fs IH|r o e IH] using alt_nested_ind;
    intros R; try discriminate.
  - destruct ro.
    + cbn [arrays_readonly_alt andb] in R. apply forallb_false in R.
      destruct R as [x [Hx R]].
      destruct (Forall_In _ _ _ _ IH Hx R) as [y [Hy Sy]].
      eexists. split; [left; reflexivity|].
      cbn [settled_alt mapped_elem andb]. apply forallb_false.
      exists y. split; [|exact Sy]. apply In_distribute. eauto.
    + eexists. split; [left; reflexivity | reflexivity].
  - cbn [arrays_readonly_alt] in R. apply forallb_false in R.
    destruct R as [f [Hf R]]. apply forallb_false in R.
    destruct R as [x [Hx R]].
    destruct (Forall_In _ _ _ _ (Forall_In _ _ _ _ IH Hf) Hx R) as [y [Hy Sy]].
    eexists. split; [left; reflexivity|].
    cbn [settled_alt]. apply forallb_false.
    eexists. split; [apply in_map, Hf|].
    cbn [fst snd]. apply forallb_false.
    exists y. split; [|exact Sy].
    apply In_mapped_optional, In_distribute. eauto.
  - cbn [arrays_readonly_alt] in R. apply forallb_false in R.
    destruct R as [x [Hx R]].
    destruct (Forall_In _ _ _ _ IH Hx R) as [y [Hy Sy]].
    eexists. split; [left; reflexivity|].
    cbn [settled_alt mapped_elem andb]. apply forallb_false.
    exists y. split; [|exact Sy]. apply In_distribute. eauto.
Qed.

Lemma settled_twice (e : ty) :
  Forall (fun a => forall y, In y (DeepReadonly_alt a) ->
                   forall z, In z (DeepReadonly_alt y) -> settled_alt z = true)
    e ->
  forallb settled_alt (DeepReadonly (DeepReadonly e)) = true.
Proof.
  intros IH. apply forallb_forall. intros z Hz.
  apply In_distribute in Hz. destruct Hz as [y [Hy Hz]].
  apply In_distribute in Hy. destruct Hy as [a [Ha Hy]].
  apply (Forall_In _ _ _ _ IH Ha y Hy z Hz).
Qed.

(** A second application leaves no such interface. *)
Lemma DeepReadonly_alt_twice_settled a :
  forall y, In y (DeepReadonly_alt a) ->
  forall z, In z (DeepReadonly_alt y) -> settled_alt z = true.
Proof.
  induction a as [p|s| |ro e IH|fs IH|r o e IH] using alt_nested_ind;
    intros y Hy z Hz.
  - destruct Hy as [<-|[]]. destruct Hz as [<-|[]]. reflexivity.
  - destruct Hy as [<-|[]]. destruct Hz as [<-|[]]. reflexivity.
  - destruct Hy as [<-|[]]. destruct Hz as [<-|[]]. reflexivity.
  - destruct ro; destruct Hy as [<-|[]]; destruct Hz as [<-|[]];
      cbn [settled_alt mapped_elem andb]; apply (settled_twice _ IH).
  - destruct Hy as [<-|[]].
    rewrite (DeepReadonly_alt_object (distribute DeepReadonly_alt)) in Hz.
    destruct Hz as [<-|[]]. cbn [settled_alt].
    apply forallb_forall. intros kf Hkf. apply in_map_iff in Hkf.
    destruct Hkf as [f [<- Hf]]. cbn [fst snd].
    apply forallb_forall. intros z Hz.
    apply mapped_optional_inv in Hz. destruct Hz as [->|Hz]; [reflexivity|].
    pose proof (settled_twice _ (Forall_In _ _ _ _ IH Hf)) as E.
    rewrite forallb_forall in E. apply E, Hz.
  - destruct Hy as [<-|[]]. destruct Hz as [<-|[]].
    cbn [settled_alt mapped_elem andb]. apply (settled_twice _ IH).
Qed.

Lemma DeepReadonly_idempotent_only S :
  DeepReadonly (DeepReadonly S) = DeepReadonly S -> arrays_readonly S = true.
Proof.
  intros E. destruct (arrays_readonly S) eqn:R; [reflexivity|].
  apply forallb_false in R. destruct R as [a [Ha R]].
  destruct (DeepReadonly_alt_unsettled a R) as [y [Hy Sy]].
  assert (Hy' : In y (DeepReadonly S)) by (apply In_distribute; eauto).
  rewrite <- E in Hy'. apply In_distribute in Hy'.
  destruct Hy' as [y1 [Hy1 Hy']]. apply In_distribute in Hy1.
  destruct Hy1 as [a1 [_ Hy1]].
  rewrite (DeepReadonly_alt_twice_settled a1 y1 Hy1 y Hy') in Sy.
  discriminate.
Qed.

(** C5, as amended.  [DeepPartial], [DeepRequired] and [DeepNonNullable]
    are idempotent on every type.  [DeepReadonly] is idempotent exactly on
    the types without a mutable array at any depth: the first application
    turns a mutable array into the interface [_DeepReadonlyArray], the
    second takes that interface to the object branch and lists its members;
    from the second application on, nothing changes any more. *)
Theorem deep_transforms_idempotence (S : ty) :
  DeepPartial (DeepPartial S) = DeepPartial S
  /\ DeepRequired (DeepRequired S) = DeepRequired S
  /\ DeepNonNullable (DeepNonNullable S) = DeepNonNullable S
  /\ (DeepReadonly (DeepReadonly S) = DeepReadonly S
      <-> arrays_readonly S = true)
  /\ DeepReadonly (DeepReadonly (DeepReadonly S))
     = DeepReadonly (DeepReadonly S).
Proof.
  split; [apply DeepPartial_idempotent|].
  split; [apply DeepRequired_idempotent|].
  split; [apply DeepNonNullable_idempotent|].
  split; [|apply DeepReadonly_settles].
  split; [apply DeepReadonly_idempotent_only | apply DeepReadonly_idempotent].
Qed.

(** C5, the counterexample.  [DeepReadonly<string[]>] is the interface
    [_DeepReadonlyArray<string>]; [DeepReadonly] of that interface is the
    object type that lists its members, each [readonly], and not the
    interface again. *)
Lemma DeepReadonly_twice_on_array :
  DeepReadonly (TArray TString) = TReadonlyArrayInterface TString
  /\ DeepReadonly (DeepReadonly (TArray TString))
     = [AIface true false TString]
  /\ DeepReadonly (DeepReadonly (TArray TString))
     <> DeepReadonly (TArray TString).
Proof. repeat split; try reflexivity. discriminate. Qed.

(* ================================================================== *)
(** * 12. The object branch, as the source writes it *)
(* ================================================================== *)

Lemma filter_not_mem_self s : filter (fun b => negb (mem b s)) s = [].
Proof.
  assert (H : forall l, (forall x, In x l -> In x s) ->
                        filter (fun b => negb (mem b s)) l = []).
  { induction l as [|x l IH]; intros Hl; [reflexivity|].
    cbn [filter]. rewrite (proj2 (mem_In x s) (Hl x (or_introl eq_refl))).
    apply IH. intros; apply Hl; right; assumption. }
  apply H. auto.
Qed.

Lemma filter_flat_map_differs (g : alt -> ty) x m :
  filter (fun b => negb (mem b (g x))) (flat_map g (filter (differs x) m))
  = filter (fun b => negb (mem b (g x))) (flat_map g m).
Proof.
  induction m as [|y m IH]; [reflexivity|].
  cbn [filter flat_map]. unfold differs at 1.
  destruct (alt_eqb x y) eqn:E; cbn [negb].
  - apply alt_eqb_spec in E. subst y.
    rewrite filter_app, filter_not_mem_self. exact IH.
  - cbn [flat_map]. rewrite !filter_app, IH. reflexivity.
Qed.

(** Distributing over a union does not depend on repeated alternatives. *)
Lemma dedup_flat_map_dedup (g : alt -> ty) l :
  dedup (flat_map g (dedup l)) = dedup (flat_map g l).
Proof.
  induction l as [|x l IH]; [reflexivity|].
  rewrite dedup_cons. cbn [flat_map]. rewrite !dedup_app. f_equal.
  rewrite <- IH, <- !(dedup_filter (fun b => negb (mem b (g x)))). f_equal.
  apply filter_flat_map_differs.
Qed.

Lemma distribute_distribute (g f : alt -> ty) t :
  distribute g (distribute f t) = distribute (fun x => flat_map g (f x)) t.
Proof.
  unfold distribute. rewrite dedup_flat_map_dedup. f_equal.
  induction t as [|x t IH]; [reflexivity|].
  cbn [flat_map]. rewrite flat_map_app, IH. reflexivity.
Qed.

Lemma distribute_ext (g h : alt -> ty) t :
  (forall x, In x t -> g x = h x) -> distribute g t = distribute h t.
Proof.
  intros H. unfold distribute. f_equal.
  induction t as [|x t IH]; [reflexivity|].
  cbn [flat_map]. rewrite (H x (or_introl eq_refl)), IH; [reflexivity|].
  intros; apply H; right; assumption.
Qed.



Lemma mapped_read (o ro : bool) (f : prop) (g : alt -> ty) :
  g undefined = [undefined] ->
  o = true \/ optional f = false ->
  mapped o ro f (distribute g (shape f)) = mapped o ro f (distribute g (read f)).
Proof.
  intros Hu [->|E].
  - unfold mapped, read. destruct (optional f); [|reflexivity].
    rewrite add_undefined_distribute by exact Hu. reflexivity.
  - unfold read. rewrite E. reflexivity.
Qed.

(** [_DeepReadonlyObject<T> = { readonly [P in keyof T]: DeepReadonly<T[P]> }] *)
Lemma DeepReadonly_object_eq fs :
  DeepReadonly (TRecord fs)
  = TRecord (map (fun f : key * prop =>
                    (fst f,
                     mapped (optional (snd f)) true (snd f)
                       (DeepReadonly (read (snd f))))) fs).
Proof.
  unfold DeepReadonly at 1, distribute, TRecord.
  cbn [flat_map DeepReadonly_alt app dedup]. do 2 f_equal.
  apply map_ext. intros [k f]. cbn [fst snd]. f_equal.
  apply mapped_read; [reflexivity|].
  destruct (optional f); auto.
Qed.

(** [_DeepPartialObject<T> = { [P in keyof T]?: DeepPartial<T[P]> }] *)
Lemma DeepPartial_object_eq fs :
  DeepPartial (TRecord fs)
  = TRecord (map (fun f : key * prop =>
                    (fst f,
                     mapped true (readonly (snd f)) (snd f)
                       (DeepPartial (read (snd f))))) fs).
Proof.
  unfold DeepPartial at 1, distribute, TRecord.
  cbn [flat_map DeepPartial_alt app dedup]. do 2 f_equal.
  apply map_ext. intros [k f]. cbn [fst snd]. f_equal.
  apply mapped_read; [reflexivity | auto].
Qed.



(* ================================================================== *)
(** * 13. DeepNonNullable and DeepRequired, field by field *)
(* ================================================================== *)

Ltac strip_side_conditions :=
  first
    [ reflexivity
    | intros [] ?; reflexivity
    | intros ?; rewrite ty_extends_undefined; apply is_undefined_prim
    | intros ?; rewrite ty_extends_nullish; apply is_nullish_prim ].









(* ================================================================== *)
(** * 14. Projection by key *)
(* ================================================================== *)

Lemma names_named fs : map key_alt (names (named fs)) = Names (map fst fs).
Proof.
  unfold names, named, Names. rewrite !map_map. reflexivity.
Qed.

Lemma keyof_Rec fs : keyof (Rec fs) = Names (map fst fs).
Proof. unfold Rec. rewrite keyof_record. apply names_named. Qed.

Lemma name_in_In n K : name_in n K = true <-> In n K.
Proof.
  unfold name_in. rewrite existsb_exists. split.
  - intros [x [Hx E]]. apply String.eqb_eq in E. subst. exact Hx.
  - intros H. exists n. split; [exact H | apply String.eqb_refl].
Qed.

Lemma alt_in_Names n K : existsb (alt_extends (ALit n)) (Names K) = name_in n K.
Proof.
  unfold Names, name_in. induction K as [|k K IH]; [reflexivity|].
  cbn [map existsb]. rewrite IH. reflexivity.
Qed.

Lemma in_keys_Names n K : in_keys (KName n) (Names K) = name_in n K.
Proof.
  unfold in_keys, mem, Names, name_in. induction K as [|k K IH];
    [reflexivity|].
  cbn [map existsb]. rewrite IH. reflexivity.
Qed.

Lemma Names_extends K N : ty_extends (Names K) (Names N) = true <-> incl K N.
Proof.
  unfold ty_extends. rewrite forallb_forall. split.
  - intros H n Hn. apply name_in_In. rewrite <- alt_in_Names.
    apply H. apply in_map, Hn.
  - intros H x Hx. apply in_map_iff in Hx. destruct Hx as [n [<- Hn]].
    rewrite alt_in_Names. apply name_in_In, H, Hn.
Qed.

Lemma Pick_Rec fs K :
  Pick (Rec fs) K
  = Rec (filter (fun nf : string * prop => in_keys (KName (fst nf)) K) fs).
Proof.
  unfold Rec. rewrite Pick_record. unfold TRecord. do 2 f_equal.
  unfold named. induction fs as [|[n f] fs IH]; [reflexivity|].
  cbn [map filter fst snd]. destruct (in_keys (KName n) K); cbn [map];
    rewrite IH; reflexivity.
Qed.

Lemma in_keys_Exclude n N K :
  in_keys (KName n) (Exclude (Names N) (Names K))
  = name_in n N && negb (name_in n K).
Proof.
  unfold in_keys, Exclude. cbn [key_alt].
  apply eq_true_iff_eq. rewrite mem_In, In_distribute, andb_true_iff,
    negb_true_iff, name_in_In. split.
  - intros [a [Ha Hy]]. apply in_map_iff in Ha. destruct Ha as [m [<- Hm]].
    unfold ty_extends in Hy. cbn [forallb] in Hy.
    rewrite andb_true_r, alt_in_Names in Hy.
    destruct (name_in m K) eqn:E; [destruct Hy|].
    destruct Hy as [Hy|[]]. inversion Hy; subst. auto.
  - intros [Hn E]. exists (ALit n). split; [apply in_map, Hn|].
    unfold ty_extends. cbn [forallb]. rewrite andb_true_r, alt_in_Names, E.
    left. reflexivity.
Qed.

Lemma PickByKey_known fs K :
  incl K (map fst fs) ->
  PickByKey (Rec fs) (Names K)
  = Ok (Rec (filter (fun nf : string * prop => name_in (fst nf) K) fs)).
Proof.
  intros H. unfold PickByKey. rewrite keyof_Rec.
  rewrite (proj2 (Names_extends _ _) H). cbn [requires].
  rewrite Pick_Rec. do 2 f_equal. apply filter_ext. intros nf.
  apply in_keys_Names.
Qed.

Lemma OmitByKey_known fs K :
  incl K (map fst fs) ->
  OmitByKey (Rec fs) (Names K)
  = Ok (Rec (filter (fun nf : string * prop => negb (name_in (fst nf) K)) fs)).
Proof.
  intros H. unfold OmitByKey. rewrite keyof_Rec.
  rewrite (proj2 (Names_extends _ _) H). cbn [requires].
  rewrite Pick_Rec. do 2 f_equal. apply filter_ext_in. intros nf Hnf.
  rewrite in_keys_Exclude.
  rewrite (proj2 (name_in_In _ _) (in_map fst _ _ Hnf)). reflexivity.
Qed.

Lemma by_key_unknown fs K :
  ~ incl K (map fst fs) ->
  OmitByKey (Rec fs) (Names K) = Err UnknownKeyError
  /\ PickByKey (Rec fs) (Names K) = Err UnknownKeyError.
Proof.
  intros H. unfold OmitByKey, PickByKey. rewrite keyof_Rec.
  destruct (ty_extends (Names K) (Names (map fst fs))) eqn:E.
  - apply Names_extends in E. contradiction.
  - split; reflexivity.
Qed.

Lemma filter_names (p : string -> bool) (fs : list (string * prop)) n :
  In n (map fst (filter (fun nf => p (fst nf)) fs))
  <-> In n (map fst fs) /\ p n = true.
Proof.
  rewrite !in_map_iff. split.
  - intros [nf [<- H]]. apply filter_In in H. destruct H as [H E].
    split; [exists nf; auto | exact E].
  - intros [[nf [<- H]] E]. exists nf. split; [reflexivity|].
    apply filter_In. auto.
Qed.

(** C8 (amended).  For a record with field names [N] and a set of names
    [K]: when [K] is a subset of [N], [OmitByKey] keeps exactly the fields
    named in [N \ K] and [PickByKey] exactly those named in [K]; when some
    name of [K] is not a field of the record, both are rejected
    ([KeyType extends keyof ObjectType] fails). *)
Theorem projection_by_key (fs : list (string * prop)) (K : list string) :
  (incl K (map fst fs) ->
   exists omitted picked,
     OmitByKey (Rec fs) (Names K) = Ok (Rec omitted)
     /\ (forall n, In n (map fst omitted) <-> In n (map fst fs) /\ ~ In n K)
     /\ PickByKey (Rec fs) (Names K) = Ok (Rec picked)
     /\ (forall n, In n (map fst picked) <-> In n K)
     /\ incl omitted fs /\ incl picked fs)
  /\ (~ incl K (map fst fs) ->
      OmitByKey (Rec fs) (Names K) = Err UnknownKeyError
      /\ PickByKey (Rec fs) (Names K) = Err UnknownKeyError).
Proof.
  split; [|apply by_key_unknown].
  intros H.
  exists (filter (fun nf : string * prop => negb (name_in (fst nf) K)) fs),
         (filter (fun nf : string * prop => name_in (fst nf) K) fs).
  split; [apply OmitByKey_known, H|].
  split.
  { intros n. rewrite (filter_names (fun m => negb (name_in m K))).
    rewrite negb_true_iff, <- not_true_iff_false, name_in_In. reflexivity. }
  split; [apply PickByKey_known, H|].
  split.
  { intros n. rewrite (filter_names (fun m => name_in m K)), name_in_In.
    split; [tauto | auto]. }
  split; intros x Hx; apply filter_In in Hx; apply Hx.
Qed.

Lemma projection_by_key_witness :
  (exists omitted picked,
     OmitByKey (Rec PropsFields) (Names ["age"]) = Ok (Rec omitted)
     /\ (forall n, In n (map fst omitted)
                   <-> In n (map fst PropsFields) /\ ~ In n ["age"])
     /\ PickByKey (Rec PropsFields) (Names ["age"]) = Ok (Rec picked)
     /\ (forall n, In n (map fst picked) <-> In n ["age"])
     /\ incl omitted PropsFields /\ incl picked PropsFields)
  /\ (OmitByKey (Rec PropsFields) (Names ["zzz"]) = Err UnknownKeyError
      /\ PickByKey (Rec PropsFields) (Names ["zzz"]) = Err UnknownKeyError).
Proof.
  split.
  - apply (proj1 (projection_by_key PropsFields ["age"])).
    intros n [<-|[]]. simpl. auto.
  - apply (proj2 (projection_by_key PropsFields ["zzz"])).
    intros H. specialize (H "zzz" (or_introl eq_refl)). simpl in H.
    repeat (destruct H as [H|H]; [discriminate|]). exact H.
Defined.

(** C8 (as stated, refuted).  A name that is not a field of the record is
    not ignored by [OmitByKey]: the type argument is rejected. *)
Lemma OmitByKey_rejects_unknown_name :
  OmitByKey (Rec PropsFields) (Names ["zzz"]) = Err UnknownKeyError
  /\ OmitByKey (Rec PropsFields) (Names ["zzz"]) <> Ok (Rec PropsFields).
Proof. split; [reflexivity | discriminate]. Qed.

(* ================================================================== *)
(** * 15. MergeExclusive *)
(* ================================================================== *)

Section two_records.
Variables a b s : string.
Variables fa fs fb fs' : prop.
Hypothesis Hab : a <> b.
Hypothesis Has : a <> s.
Hypothesis Hbs : b <> s.

Local Abbreviation T := (Rec [(a, fa); (s, fs)]).
Local Abbreviation U := (Rec [(b, fb); (s, fs')]).

Ltac names_differ :=
  repeat match goal with
    | |- context [String.eqb ?x ?x] => rewrite (String.eqb_refl x)
    | |- context [String.eqb ?x ?y] =>
        rewrite (proj2 (String.eqb_neq x y)) by congruence
    end.

Lemma Without_T_U : _Without T U = TRecord [(KName a, impossible)].
Proof.
  unfold _Without. rewrite !keyof_Rec.
  unfold Exclude, distribute, ty_extends, Names.
  cbn [map fst flat_map forallb existsb alt_extends].
  names_differ. reflexivity.
Qed.

Lemma Without_U_T : _Without U T = TRecord [(KName b, impossible)].
Proof.
  unfold _Without. rewrite !keyof_Rec.
  unfold Exclude, distribute, ty_extends, Names.
  cbn [map fst flat_map forallb existsb alt_extends].
  names_differ. reflexivity.
Qed.

Lemma inter_Without_U :
  inter (TRecord [(KName a, impossible)]) U
  = TRecord (named [(a, impossible); (b, fb); (s, fs')]).
Proof.
  unfold inter, ty_eqb, Rec, TRecord, named.
  cbn [map fst snd list_eqb alt_eqb key_eqb]. names_differ.
  cbn [andb flat_map inter_alt app dedup filter map fst snd].
  unfold lookup, has_key. cbn [find existsb key_eqb fst snd].
  names_differ. reflexivity.
Qed.

Lemma inter_Without_T :
  inter (TRecord [(KName b, impossible)]) T
  = TRecord (named [(b, impossible); (a, fa); (s, fs)]).
Proof.
  unfold inter, ty_eqb, Rec, TRecord, named.
  cbn [map fst snd list_eqb alt_eqb key_eqb]. names_differ.
  cbn [andb flat_map inter_alt app dedup filter map fst snd].
  unfold lookup, has_key. cbn [find existsb key_eqb fst snd].
  names_differ. reflexivity.
Qed.

Lemma MergeExclusive_T_U :
  MergeExclusive T U
  = Ok [AObj (named [(a, impossible); (b, fb); (s, fs')]);
        AObj (named [(b, impossible); (a, fa); (s, fs)])].
Proof.
  unfold MergeExclusive. rewrite Without_T_U, Without_U_T.
  rewrite inter_Without_U, inter_Without_T.
  unfold Rec, TRecord, union, named.
  cbn [map fst snd app dedup filter alt_eqb list_eqb key_eqb
       extends_object forallb alt_is_object andb].
  names_differ. reflexivity.
Qed.

Lemma never_both present :
  In (KName a) present -> In (KName b) present ->
  existsb (conforms present)
    [AObj (named [(a, impossible); (b, fb); (s, fs')]);
     AObj (named [(b, impossible); (a, fa); (s, fs)])] = false.
Proof.
  intros Ha Hb.
  assert (E : forall k rest,
             In (KName k) present ->
             conforms present (AObj ((KName k, impossible) :: rest)) = false).
  { intros k rest Hk. unfold conforms. apply andb_false_iff. left.
    destruct (forallb _ present) eqn:F; [|reflexivity].
    rewrite forallb_forall in F. specialize (F _ Hk).
    unfold lookup in F. cbn [props_of find fst snd key_eqb] in F.
    rewrite String.eqb_refl in F. discriminate. }
  cbn [existsb named map fst snd].
  rewrite (E a _ Ha), (E b _ Hb). reflexivity.
Qed.
(** An instance with the fields of one record alone conforms to the
    alternative that carries the other record's name as [k?: never]: the
    [?] lets it leave that name out. *)
Lemma one_side_conforms (x y : string) (fy fz : prop) :
  x <> y -> x <> s -> y <> s ->
  suppliable fy = true -> suppliable fz = true ->
  conforms [KName y; KName s]
    (AObj (named [(x, Field TUndefined true false); (y, fy); (s, fz)])) = true.
Proof.
  intros Hxy Hxs Hys Sy Sz. unfold suppliable in Sy, Sz.
  unfold conforms, lookup.
  cbn [props_of named map fst snd find forallb existsb key_eqb optional orb].
  names_differ. cbn [snd]. rewrite Sy, Sz. cbn [andb orb].
  rewrite !orb_true_r. reflexivity.
Qed.
End two_records.

(** C9.  For [T = {a, shared}] and [U = {b, shared}] with three distinct
    names, [MergeExclusive<T, U>] is a union of exactly two record
    alternatives: the fields of [U] with [a?: never], and the fields of [T]
    with [b?: never], where [k?: never] is an optional property from which
    nothing but [undefined] can be read.  No instance that supplies both
    [a] and [b] conforms to either alternative; an instance that supplies
    [b] and the shared field conforms to the first, and one that supplies
    [a] and the shared field to the second, whenever the fields can be
    supplied at all. *)
Theorem MergeExclusive_two_variants (a b s : string) (fa fs fb fs' : prop) :
  a <> b -> a <> s -> b <> s ->
  MergeExclusive (Rec [(a, fa); (s, fs)]) (Rec [(b, fb); (s, fs')])
  = Ok [AObj (named [(a, Field TUndefined true false); (b, fb); (s, fs')]);
        AObj (named [(b, Field TUndefined true false); (a, fa); (s, fs)])]
  /\ (forall present,
        In (KName a) present -> In (KName b) present ->
        existsb (conforms present)
          [AObj (named [(a, Field TUndefined true false); (b, fb); (s, fs')]);
           AObj (named [(b, Field TUndefined true false); (a, fa); (s, fs)])]
        = false)
  /\ (suppliable fb = true -> suppliable fs' = true ->
      conforms [KName b; KName s]
        (AObj (named [(a, Field TUndefined true false); (b, fb); (s, fs')]))
      = true)
  /\ (suppliable fa = true -> suppliable fs = true ->
      conforms [KName a; KName s]
        (AObj (named [(b, Field TUndefined true false); (a, fa); (s, fs)]))
      = true).
Proof.
  intros Hab Has Hbs. split; [|split; [|split]].
  - apply MergeExclusive_T_U; assumption.
  - apply (never_both a b s fa fs fb fs').
  - apply one_side_conforms; congruence.
  - apply one_side_conforms; congruence.
Qed.

Lemma MergeExclusive_two_variants_witness :
  MergeExclusive (Rec [("exclusive1", req TBoolean); ("shared", req TNumber)])
                 (Rec [("exclusive2", req TString); ("shared", req TNumber)])
  = Ok [AObj (named [("exclusive1", Field TUndefined true false);
                     ("exclusive2", req TString); ("shared", req TNumber)]);
        AObj (named [("exclusive2", Field TUndefined true false);
                     ("exclusive1", req TBoolean); ("shared", req TNumber)])]
  /\ (forall present,
        In (KName "exclusive1") present -> In (KName "exclusive2") present ->
        existsb (conforms present)
          [AObj (named [("exclusive1", Field TUndefined true false);
                        ("exclusive2", req TString); ("shared", req TNumber)]);
           AObj (named [("exclusive2", Field TUndefined true false);
                        ("exclusive1", req TBoolean);
                        ("shared", req TNumber)])] = false)
  /\ conforms [KName "exclusive2"; KName "shared"]
       (AObj (named [("exclusive1", Field TUndefined true false);
                     ("exclusive2", req TString); ("shared", req TNumber)]))
     = true
  /\ conforms [KName "exclusive1"; KName "shared"]
       (AObj (named [("exclusive2", Field TUndefined true false);
                     ("exclusive1", req TBoolean); ("shared", req TNumber)]))
     = true.
Proof.
  destruct (MergeExclusive_two_variants "exclusive1" "exclusive2" "shared"
              (req TBoolean) (req TNumber) (req TString) (req TNumber))
    as [E [N [A B]]]; try discriminate.
  split; [exact E|]. split; [exact N|].
  split; [apply A; reflexivity | apply B; reflexivity].
Defined.

(* ================================================================== *)
(** * 16. Inputs that are not records *)
(* ================================================================== *)

Lemma not_object_leaf x :
  alt_is_object x = false
  <-> (exists p, x = APrim p) \/ (exists l, x = ALit l).
Proof.
  destruct x; simpl; split; try discriminate; eauto;
    intros [[? E]|[? E]]; discriminate.
Qed.

Lemma extends_object_false T :
  extends_object T = false
  <-> exists x, In x T /\ ((exists p, x = APrim p) \/ (exists l, x = ALit l)).
Proof.
  unfold extends_object. rewrite forallb_false. split.
  - intros [x [Hx E]]. exists x. split; [exact Hx|]. apply not_object_leaf, E.
  - intros [x [Hx E]]. exists x. split; [exact Hx|]. apply not_object_leaf, E.
Qed.

(** [(F | S) extends object] holds when both [F] and [S] do. *)
Lemma extends_object_union F S :
  extends_object (union F S) = extends_object F && extends_object S.
Proof.
  unfold union, extends_object. rewrite <- forallb_app.
  rewrite <- (forallb_same_members _ alt_is_object _ _
                (fun x => dedup_In x (F ++ S))).
  unfold absorb_literals.
  destruct (mem (APrim PString) (dedup (F ++ S))) eqn:M; [|reflexivity].
  apply mem_In in M.
  transitivity false; [|symmetry]; apply forallb_false;
    exists (APrim PString); (split; [|reflexivity]); [|exact M].
  apply filter_In. split; [exact M | reflexivity].
Qed.

Lemma constrained_ok T U :
  extends_object T = true -> extends_object U = true ->
  (exists t, MergeOverride T U = Ok t) /\ (exists t, Merge T U = Ok t).
Proof.
  intros HT HU. unfold MergeOverride, Merge, ObjectSubtract.
  rewrite HT, HU. cbn [requires bind]. split; eexists; reflexivity.
Qed.

Lemma constrained_err T U :
  extends_object T && extends_object U = false ->
  MergeOverride T U = Err StructuralPreconditionError
  /\ Merge T U = Err StructuralPreconditionError.
Proof.
  intros H. unfold MergeOverride, Merge, requires.
  destruct (extends_object T); [|split; reflexivity].
  destruct (extends_object U); [discriminate | split; reflexivity].
Qed.

Lemma Pick_no_key T : Pick T never = TRecord [].
Proof.
  destruct T as [|a [|b T]]; try reflexivity.
  unfold Pick, TRecord. do 2 f_equal.
  induction (props_of a) as [|f fs IH]; [reflexivity | exact IH].
Qed.

(** C10, as amended.  An input is rejected by [extends object] exactly
    when one of its alternatives is a primitive or a literal; records,
    arrays and callables pass.  In whichever position such an input
    stands, [MergeOverride] and [Merge] fail with
    [StructuralPreconditionError] and [MergeExclusive] returns the plain
    union [FirstType | SecondType]; when both inputs pass, [MergeOverride]
    and [Merge] return a result.  [MergeExclusive], [PickByValue] and
    [OmitByValue] return a result on all inputs.  [PickByKey] and
    [OmitByKey] never fail with [StructuralPreconditionError], and
    [PickByKey] with no key returns the empty record whatever its input. *)
Theorem non_record_inputs (T U V K : ty) :
  (extends_object T = false
   <-> exists x, In x T /\ ((exists p, x = APrim p) \/ (exists l, x = ALit l)))
  /\ (if extends_object T && extends_object U
      then (exists t, MergeOverride T U = Ok t)
           /\ (exists t, Merge T U = Ok t)
      else MergeOverride T U = Err StructuralPreconditionError
           /\ Merge T U = Err StructuralPreconditionError
           /\ MergeExclusive T U = Ok (union T U))
  /\ (exists t, MergeExclusive T U = Ok t)
  /\ (exists t, PickByValue T V = Ok t)
  /\ (exists t, OmitByValue T V = Ok t)
  /\ PickByKey T K <> Err StructuralPreconditionError
  /\ OmitByKey T K <> Err StructuralPreconditionError
  /\ PickByKey T never = Ok (TRecord []).
Proof.
  split; [apply extends_object_false|].
  split.
  { destruct (extends_object T && extends_object U) eqn:E.
    - apply andb_true_iff in E. apply constrained_ok; tauto.
    - destruct (constrained_err T U E) as [E1 E2].
      split; [exact E1|]. split; [exact E2|].
      unfold MergeExclusive. rewrite extends_object_union, E. reflexivity. }
  split.
  { unfold MergeExclusive.
    destruct (extends_object (union T U)); eexists; reflexivity. }
  split; [eexists; reflexivity|].
  split; [eexists; reflexivity|].
  split.
  { unfold PickByKey, requires.
    destruct (ty_extends K (keyof T)); discriminate. }
  split.
  { unfold OmitByKey, requires.
    destruct (ty_extends K (keyof T)); discriminate. }
  unfold PickByKey. cbn [ty_extends forallb never requires].
  rewrite Pick_no_key. reflexivity.
Qed.

(** C10 (as stated, refuted).  [MergeExclusive<string, number>] is
    [string | number]: no error is raised for inputs that are not
    records. *)
Lemma MergeExclusive_accepts_primitives :
  MergeExclusive TString TNumber = Ok [APrim PString; APrim PNumber]
  /\ MergeExclusive TString TNumber <> Err StructuralPreconditionError.
Proof. split; [reflexivity | discriminate]. Qed.

(* ================================================================== *)
(** * 17. The examples of the doc comments *)
(* ================================================================== *)

(** [PickByValue<Props, string | number>] is [{name: string; age: number}]
    and [OmitByValue<Props, string | number>] is [{visible: boolean}]. *)
Example PickByValue_documented :
  PickByValue Props [APrim PString; APrim PNumber]
  = Ok (Rec [("name", req TString); ("age", req TNumber)]).
Proof. reflexivity. Qed.

Example OmitByValue_documented :
  OmitByValue Props [APrim PString; APrim PNumber]
  = Ok (Rec [("visible", req TBoolean)]).
Proof. reflexivity. Qed.

(** [ObjectSubtract<Props, {age: number}>] is
    [{name: string; visible: boolean}]. *)
Example ObjectSubtract_documented :
  ObjectSubtract Props (Rec [("age", req TNumber)])
  = Ok (Rec [("name", req TString); ("visible", req TBoolean)]).
Proof. reflexivity. Qed.

(** [DeepPartial<{first: {second: {name: string}}}>] makes every field
    optional, at every depth. *)
Example DeepPartial_documented :
  DeepPartial
    (Rec [("first", req (Rec [("second", req (Rec [("name", req TString)]))]))])
  = Rec [("first",
          opt [AObj (named
                 [("second",
                   opt [AObj (named
                          [("name", opt [APrim PString; undefined])]);
                        undefined])]);
               undefined])].
Proof. reflexivity. Qed.

(** [DeepReadonly<{first: {second: {name: string}}}>] marks every field
    [readonly]. *)
Example DeepReadonly_documented :
  DeepReadonly
    (Rec [("first", req (Rec [("second", req (Rec [("name", req TString)]))]))])
  = Rec [("first",
          Field [AObj (named
                   [("second",
                     Field [AObj (named
                              [("name", Field TString false true)])]
                       false true)])]
            false true)].
Proof. reflexivity. Qed.

(** [DeepNonNullable] of the documented nested example is
    [{first: {second: {name: string}}}]. *)
Example DeepNonNullable_documented :
  DeepNonNullable NestedNullable
  = Rec [("first", req (Rec [("second", req (Rec [("name", req TString)]))]))].
Proof. reflexivity. Qed.

(** [DeepRequired<{first?: {second?: {name?: string}}}>] is
    [{first: {second: {name: string}}}]. *)
Example DeepRequired_documented :
  DeepRequired
    (Rec [("first", opt (Rec [("second", opt (Rec [("name", opt TString)]))]))])
  = Rec [("first", req (Rec [("second", req (Rec [("name", req TString)]))]))].
Proof. reflexivity. Qed.

(** [Difference<'1' | '2' | '3', '2' | '3' | '4'>] is ['1' | '4']. *)
Example Difference_documented :
  Difference (Names ["1"; "2"; "3"]) (Names ["2"; "3"; "4"])
  = Names ["1"; "4"].
Proof. reflexivity. Qed.

(* ================================================================== *)
(** * 18. [union.ts]: the set operations *)
(* ================================================================== *)

Lemma In_Extract a A B :
  In a (Extract A B) <-> In a A /\ ty_extends [a] B = true.
Proof.
  unfold Extract. rewrite In_distribute. split.
  - intros [x [Hx H]]. destruct (ty_extends [x] B) eqn:E; [|destruct H].
    destruct H as [<-|[]]. auto.
  - intros [Ha E]. exists a. rewrite E. split; [exact Ha | left; reflexivity].
Qed.

Lemma In_Exclude a A B :
  In a (Exclude A B) <-> In a A /\ ty_extends [a] B = false.
Proof.
  unfold Exclude. rewrite In_distribute. split.
  - intros [x [Hx H]]. destruct (ty_extends [x] B) eqn:E; [destruct H|].
    destruct H as [<-|[]]. auto.
  - intros [Ha E]. exists a. rewrite E. split; [exact Ha | left; reflexivity].
Qed.

(** X1.  [Intersect<A, B>] and [Substract<A, B>] split the alternatives of
    [A]: each alternative of [A] is in exactly one of them, and neither has
    any other alternative. *)
Theorem Intersect_Substract_split (A B : ty) (a : alt) :
  (In a A <-> In a (Intersect A B) \/ In a (Substract A B))
  /\ ~ (In a (Intersect A B) /\ In a (Substract A B)).
Proof.
  unfold Intersect, Substract. rewrite In_Extract, In_Exclude. split.
  - split.
    + intros H. destruct (ty_extends [a] B); auto.
    + intros [[H _]|[H _]]; exact H.
  - intros [[_ E] [_ E']]. congruence.
Qed.

Lemma ty_extends_Names n K : ty_extends [ALit n] (Names K) = name_in n K.
Proof.
  unfold ty_extends. cbn [forallb]. rewrite andb_true_r. apply alt_in_Names.
Qed.

Lemma In_Names n K : In (ALit n) (Names K) <-> In n K.
Proof.
  unfold Names. rewrite in_map_iff. split.
  - intros [m [E H]]. inversion E; subst. exact H.
  - intros H. exists n. auto.
Qed.

Lemma name_in_false n K : name_in n K = false <-> ~ In n K.
Proof.
  rewrite <- name_in_In. destruct (name_in n K); split; congruence.
Qed.

(** X2.  On sets of names [Substract] is the set difference and [Intersect]
    the set intersection, and both results are made of names of the first
    set only. *)
Theorem name_set_operations (A B : list string) (n : string) :
  (In (ALit n) (Substract (Names A) (Names B)) <-> In n A /\ ~ In n B)
  /\ (In (ALit n) (Intersect (Names A) (Names B)) <-> In n A /\ In n B)
  /\ Forall (fun a => exists m, a = ALit m /\ In m A)
       (Substract (Names A) (Names B) ++ Intersect (Names A) (Names B)).
Proof.
  unfold Substract, Intersect. split; [|split].
  - rewrite In_Exclude, In_Names, ty_extends_Names, name_in_false.
    reflexivity.
  - rewrite In_Extract, In_Names, ty_extends_Names, name_in_In.
    reflexivity.
  - apply Forall_forall. intros a H. apply in_app_iff in H.
    destruct H as [H|H]; [apply In_Exclude in H | apply In_Extract in H];
      destruct H as [H _]; apply in_map_iff in H;
      destruct H as [m [<- H]]; eauto.
Qed.

Lemma In_union_Names n A B :
  In (ALit n) (union (Names A) (Names B)) <-> In n A \/ In n B.
Proof.
  rewrite In_union, !In_Names. split; [tauto|].
  intros H. split; [exact H|].
  intros [S|S]; apply in_map_iff in S; destruct S as [m [E _]]; discriminate.
Qed.

Lemma In_inter_Names a A B :
  In a (inter (Names A) (Names B)) <-> exists n, a = ALit n /\ In n A /\ In n B.
Proof.
  unfold inter. destruct (ty_eqb (Names A) (Names B)) eqn:E.
  - assert (E' : Names A = Names B).
    { apply (list_eqb_spec _ alt_eqb); [|exact E].
      apply Forall_forall. intros x _. apply alt_eqb_spec. }
    split.
    + intros H. pose proof H as H'. rewrite E' in H'.
      apply in_map_iff in H. destruct H as [n [<- H]].
      exists n. rewrite In_Names in H'. auto.
    + intros [n [-> [H _]]]. apply In_Names, H.
  - rewrite dedup_In, in_flat_map. split.
    + intros [x [Hx H]]. apply in_flat_map in H. destruct H as [y [Hy H]].
      apply in_map_iff in Hx. destruct Hx as [n [<- Hn]].
      apply in_map_iff in Hy. destruct Hy as [m [<- Hm]].
      cbn [inter_alt] in H. destruct (String.eqb n m) eqn:Enm; [|destruct H].
      apply String.eqb_eq in Enm. subst m. destruct H as [<-|[]]. eauto.
    + intros [n [-> [Hn Hm]]]. exists (ALit n). split; [apply In_Names, Hn|].
      apply in_flat_map. exists (ALit n). split; [apply In_Names, Hm|].
      cbn [inter_alt]. rewrite String.eqb_refl. left. reflexivity.
Qed.

Lemma ty_extends_inter_Names n A B :
  ty_extends [ALit n] (inter (Names A) (Names B)) = true <-> In n A /\ In n B.
Proof.
  unfold ty_extends. cbn [forallb]. rewrite andb_true_r, existsb_exists. split.
  - intros [y [Hy E]]. apply In_inter_Names in Hy.
    destruct Hy as [m [-> [Ha Hb]]]. cbn [alt_extends] in E.
    apply String.eqb_eq in E. subst. auto.
  - intros H. exists (ALit n). split.
    + apply In_inter_Names. exists n. tauto.
    + apply alt_extends_refl.
Qed.

(** X3.  On sets of names [Difference] is the symmetric difference: a name
    is in the result exactly when it is in one of the two sets and not in
    the other; so the result has the same names whichever way round the
    arguments are given. *)
Theorem Difference_symmetric_difference (A B : list string) (n : string) :
  (In (ALit n) (Difference (Names A) (Names B))
   <-> (In n A /\ ~ In n B) \/ (In n B /\ ~ In n A))
  /\ (In (ALit n) (Difference (Names A) (Names B))
      <-> In (ALit n) (Difference (Names B) (Names A))).
Proof.
  assert (H : forall A B,
             In (ALit n) (Difference (Names A) (Names B))
             <-> (In n A /\ ~ In n B) \/ (In n B /\ ~ In n A)).
  { clear A B. intros A B. unfold Difference, Substract.
    rewrite In_Exclude, In_union_Names, <- not_true_iff_false,
      ty_extends_inter_Names. tauto. }
  split; [apply H|]. rewrite !H. tauto.
Qed.

(* ================================================================== *)
(** * 19. [basic.ts]: NonUndefined, FunctionKeys, NonFunctionKeys *)
(* ================================================================== *)

Lemma In_NonUndefined a A : In a (NonUndefined A) <-> In a A /\ a <> undefined.
Proof.
  unfold NonUndefined. rewrite In_distribute. split.
  - intros [x [Hx H]]. rewrite ty_extends_undefined in H.
    destruct (is_undefined x) eqn:E; [destruct H|].
    destruct H as [<-|[]]. split; [exact Hx | apply not_undefined, E].
  - intros [Ha N]. exists a. split; [exact Ha|].
    rewrite ty_extends_undefined.
    destruct (is_undefined a) eqn:E; [|left; reflexivity].
    apply is_undefined_eq in E. contradiction.
Qed.

(** X4.  [NonUndefined<A>] drops the alternative [undefined] and nothing
    else ([null] stays), and applying it twice is the same as applying it
    once. *)
Theorem NonUndefined_removes_undefined_only (A : ty) :
  (forall a, In a (NonUndefined A) <-> In a A /\ a <> undefined)
  /\ (In null (NonUndefined A) <-> In null A)
  /\ NonUndefined (NonUndefined A) = NonUndefined A.
Proof.
  split; [intros a; apply In_NonUndefined|]. split.
  - rewrite In_NonUndefined. split; [tauto|].
    intros H. split; [exact H | discriminate].
  - apply distribute_fixed; [apply NoDup_distribute|].
    intros y Hy. apply In_NonUndefined in Hy. destruct Hy as [_ N].
    rewrite ty_extends_undefined.
    destruct (is_undefined y) eqn:E; [|reflexivity].
    apply is_undefined_eq in E. contradiction.
Qed.

Lemma in_keys_keyof_Rec n fs :
  in_keys (KName n) (keyof (Rec fs)) = name_in n (map fst fs).
Proof. rewrite keyof_Rec. apply in_keys_Names. Qed.

(** The names selected by the mapped type of [PickByValue], [OmitByValue],
    [FunctionKeys] and [NonFunctionKeys]. *)
Lemma In_value_keys sel fs n :
  In (ALit n) (value_keys sel (Rec fs))
  <-> exists f, In (n, f) fs /\ sel (read f) = true.
Proof.
  unfold value_keys, Rec, TRecord. rewrite In_distribute. split.
  - intros [a [[<-|[]] H]]. cbn [props_of] in H.
    apply in_flat_map in H. destruct H as [kf [Hkf H]].
    unfold named in Hkf. apply in_map_iff in Hkf.
    destruct Hkf as [[m f] [<- Hf]]. cbn [fst snd] in H.
    destruct (in_keys (KName m) (keyof [AObj (named fs)])); [|destruct H].
    apply in_app_iff in H. destruct H as [H|H].
    + destruct (sel (read f)) eqn:E; [|destruct H].
      destruct H as [H|[]]. cbn [key_alt] in H. inversion H; subst.
      exists f. auto.
    + destruct (optional f); [|destruct H].
      destruct H as [H|[]]. discriminate.
  - intros [f [Hf E]]. exists (AObj (named fs)). split; [left; reflexivity|].
    cbn [props_of]. apply in_flat_map. exists (KName n, f). split.
    + unfold named. apply in_map_iff. exists (n, f). auto.
    + cbn [fst snd]. fold (TRecord (named fs)). fold (Rec fs).
      rewrite in_keys_keyof_Rec.
      assert (Hn : In n (map fst fs)) by apply (in_map fst _ _ Hf).
      rewrite (proj2 (name_in_In _ _) Hn), E. left. reflexivity.
Qed.

(** X5.  For a record, [FunctionKeys] is the set of the names of the fields
    whose type is callable and [NonFunctionKeys] the set of the names of a
    field whose type is not; every field name is in one of the two, and
    neither contains anything that is not a field name. *)
Theorem FunctionKeys_NonFunctionKeys (fs : list (string * prop)) :
  exists fk nfk,
    FunctionKeys (Rec fs) = Ok fk
    /\ NonFunctionKeys (Rec fs) = Ok nfk
    /\ (forall n, In (ALit n) fk
                  <-> exists f, In (n, f) fs
                                /\ ty_extends (read f) TFunction = true)
    /\ (forall n, In (ALit n) nfk
                  <-> exists f, In (n, f) fs
                                /\ ty_extends (read f) TFunction = false)
    /\ (forall n, In n (map fst fs) <-> In (ALit n) fk \/ In (ALit n) nfk).
Proof.
  eexists. eexists. split; [reflexivity|]. split; [reflexivity|].
  split; [intros n; apply In_value_keys|].
  split.
  { intros n. rewrite In_value_keys. split; intros [f [Hf E]]; exists f;
      (split; [exact Hf|]).
    - apply negb_true_iff, E.
    - apply negb_true_iff, E. }
  intros n. rewrite !In_value_keys, in_map_iff. split.
  - intros [[m f] [<- Hf]]. cbn [fst].
    destruct (ty_extends (read f) TFunction) eqn:E.
    + left. exists f. auto.
    + right. exists f. rewrite E. auto.
  - intros [[f [Hf _]]|[f [Hf _]]]; exists (n, f); auto.
Qed.

(** The examples of the doc comments: ["setName"] and ["name"]. *)
Example FunctionKeys_documented :
  FunctionKeys MixedProps = Ok (TLit "setName")
  /\ NonFunctionKeys MixedProps = Ok (TLit "name").
Proof. split; reflexivity. Qed.

(* ================================================================== *)
(** * 20. [object.ts]: projections *)
(* ================================================================== *)

Lemma filter_none (A : Type) (p : A -> bool) (l : list A) :
  (forall x, In x l -> p x = false) -> filter p l = [].
Proof.
  induction l as [|x l IH]; intros H; [reflexivity|].
  cbn [filter]. rewrite (H x (or_introl eq_refl)). apply IH.
  intros; apply H; right; assumption.
Qed.

Lemma Exclude_never T : Exclude T never = dedup T.
Proof.
  unfold Exclude, distribute. f_equal. apply flat_map_fixed. reflexivity.
Qed.

(** X6.  The edge cases of projection by key, for every record [R]:
    picking all the keys of [R] or omitting none gives [R]; picking none
    or omitting all gives the empty record. *)
Theorem by_key_edge_cases (fs : props) :
  PickByKey (TRecord fs) (keyof (TRecord fs)) = Ok (TRecord fs)
  /\ OmitByKey (TRecord fs) never = Ok (TRecord fs)
  /\ PickByKey (TRecord fs) never = Ok (TRecord [])
  /\ OmitByKey (TRecord fs) (keyof (TRecord fs)) = Ok (TRecord []).
Proof.
  assert (N : forall K, ty_extends never K = true) by reflexivity.
  unfold PickByKey, OmitByKey. rewrite ty_extends_refl, N.
  cbn [requires]. split; [|split; [|split]].
  - rewrite Pick_all. reflexivity.
  - rewrite Exclude_never, Pick_record, keyof_record. unfold TRecord.
    do 3 f_equal. apply filter_id. intros [k f] H.
    apply mem_In, dedup_In, in_map. apply (in_map fst) in H. exact H.
  - rewrite Pick_record. unfold TRecord. do 3 f_equal.
    apply filter_none. reflexivity.
  - rewrite Exclude_self, Pick_record. unfold TRecord. do 3 f_equal.
    apply filter_none. reflexivity.
Qed.

Lemma unique_field (fs : list (string * prop)) n f f' :
  NoDup (map fst fs) -> In (n, f) fs -> In (n, f') fs -> f = f'.
Proof.
  induction fs as [|[m g] fs IH]; intros N H H'; [destruct H|].
  cbn [map fst] in N. inversion N as [|? ? Hm N']; subst.
  destruct H as [H|H], H' as [H'|H'].
  - congruence.
  - inversion H; subst. destruct Hm. apply (in_map fst) in H'. exact H'.
  - inversion H'; subst. destruct Hm. apply (in_map fst) in H. exact H.
  - apply IH; assumption.
Qed.

Lemma Pick_value_keys sel fs :
  NoDup (map fst fs) ->
  Pick (Rec fs) (value_keys sel (Rec fs))
  = Rec (filter (fun nf : string * prop => sel (read (snd nf))) fs).
Proof.
  intros N. rewrite Pick_Rec. f_equal. apply filter_ext_in.
  intros [n f] Hf. cbn [fst snd]. apply eq_true_iff_eq.
  unfold in_keys. cbn [key_alt]. rewrite mem_In, In_value_keys. split.
  - intros [f' [Hf' E]]. rewrite (unique_field _ _ _ _ N Hf Hf'). exact E.
  - intros E. exists f. auto.
Qed.

Lemma by_value_Rec (fs : list (string * prop)) (V : ty) :
  NoDup (map fst fs) ->
  PickByValue (Rec fs) V
  = Ok (Rec (filter (fun nf => ty_extends (read (snd nf)) V) fs))
  /\ OmitByValue (Rec fs) V
     = Ok (Rec (filter (fun nf => negb (ty_extends (read (snd nf)) V)) fs)).
Proof.
  intros N. unfold PickByValue, OmitByValue.
  rewrite (Pick_value_keys (fun t => ty_extends t V) _ N).
  rewrite (Pick_value_keys (fun t => negb (ty_extends t V)) _ N).
  split; reflexivity.
Qed.

(** Assignability to a primitive or to a string literal. *)
Lemma alt_extends_leaf x v :
  is_leaf v = true ->
  alt_extends x v = alt_eqb x v || (is_literal x && alt_eqb (APrim PString) v).
Proof.
  destruct v as [q|l| | | |]; try discriminate; intros _.
  - destruct x as [p|s| | | |]; try reflexivity;
      try (destruct p, q; reflexivity); destruct q; reflexivity.
  - destruct x as [[]|s| | | |]; try reflexivity.
    simpl. rewrite orb_false_r. reflexivity.
Qed.

Lemma extends_primitives x V :
  primitives_only V = true -> existsb (alt_extends x) V = among V x.
Proof.
  unfold primitives_only, among, mem. induction V as [|v V IH]; intros H.
  - cbn [existsb]. rewrite andb_false_r. reflexivity.
  - cbn [forallb] in H. apply andb_true_iff in H. destruct H as [L H].
    cbn [existsb]. rewrite (alt_extends_leaf x v L), (IH H).
    destruct (alt_eqb x v), (existsb (alt_eqb x) V), (is_literal x),
      (alt_eqb (APrim PString) v), (existsb (alt_eqb (APrim PString)) V);
      reflexivity.
Qed.

Lemma ty_extends_primitives t V :
  primitives_only V = true -> ty_extends t V = forallb (among V) t.
Proof.
  intros H. unfold ty_extends. induction t as [|x t IH]; [reflexivity|].
  cbn [forallb]. rewrite (extends_primitives x V H), IH. reflexivity.
Qed.

(** X7.  For a record whose field names are distinct and a value type [V]
    that is a union of primitives and string literals,
    [PickByValue<R, V>] keeps exactly the fields whose type, as read, has
    all its alternatives among those of [V] (a string literal counting as
    [string]), and [OmitByValue<R, V>] exactly the others, each field
    unchanged and in the order of [R]. *)
Theorem by_value_split (fs : list (string * prop)) (V : ty) :
  NoDup (map fst fs) ->
  primitives_only V = true ->
  PickByValue (Rec fs) V
  = Ok (Rec (filter (fun nf => forallb (among V) (read (snd nf))) fs))
  /\ OmitByValue (Rec fs) V
     = Ok (Rec (filter (fun nf => negb (forallb (among V) (read (snd nf))))
                  fs)).
Proof.
  intros N P. destruct (by_value_Rec fs V N) as [E1 E2].
  rewrite E1, E2. split; do 2 f_equal; apply filter_ext; intros nf;
    rewrite (ty_extends_primitives _ V P); reflexivity.
Qed.

Lemma by_value_split_witness :
  PickByValue (Rec PropsFields) [APrim PString; APrim PNumber]
  = Ok (Rec [("name", req TString); ("age", req TNumber)])
  /\ OmitByValue (Rec PropsFields) [APrim PString; APrim PNumber]
     = Ok (Rec [("visible", req TBoolean)]).
Proof.
  apply (by_value_split PropsFields [APrim PString; APrim PNumber]).
  - repeat constructor; simpl; intuition discriminate.
  - reflexivity.
Defined.

Lemma optional_not_assignable (f : prop) V :
  optional f = true -> ty_extends TUndefined V = false ->
  ty_extends (read f) V = false.
Proof.
  intros O U. unfold read. rewrite O.
  destruct (ty_extends (add_undefined (shape f)) V) eqn:E; [|reflexivity].
  unfold ty_extends in E. rewrite forallb_forall in E.
  specialize (E undefined (add_undefined_In _)).
  unfold ty_extends, TUndefined in U. cbn [forallb] in U.
  rewrite andb_true_r in U. fold undefined in U. congruence.
Qed.

(** X21.  [PickByValue] tests [ObjectType[Key]], which for an optional
    field includes [undefined]: unless [undefined] is assignable to [V], an
    optional field is never picked by [PickByValue<R, V>] and always kept by
    [OmitByValue<R, V>], whatever its declared type. *)
Theorem by_value_optional_field
        (fs : list (string * prop)) (V : ty) (n : string) (f : prop) :
  NoDup (map fst fs) ->
  In (n, f) fs -> optional f = true -> ty_extends TUndefined V = false ->
  exists picked omitted,
    PickByValue (Rec fs) V = Ok (Rec picked)
    /\ OmitByValue (Rec fs) V = Ok (Rec omitted)
    /\ ~ In n (map fst picked) /\ In (n, f) omitted.
Proof.
  intros N Hf O U. destruct (by_value_Rec fs V N) as [-> ->].
  eexists. eexists. split; [reflexivity|]. split; [reflexivity|].
  pose proof (optional_not_assignable f V O U) as E. split.
  - intros H. apply in_map_iff in H. destruct H as [[m g] [<- H]].
    apply filter_In in H. destruct H as [Hg Eg]. cbn [fst snd] in *.
    rewrite (unique_field _ _ _ _ N Hg Hf) in Eg. congruence.
  - apply filter_In. cbn [snd]. rewrite E. auto.
Qed.

Lemma by_value_optional_field_witness :
  exists picked omitted,
    PickByValue (Rec [("name", opt TString); ("age", req TNumber)]) TString
    = Ok (Rec picked)
    /\ OmitByValue (Rec [("name", opt TString); ("age", req TNumber)]) TString
       = Ok (Rec omitted)
    /\ ~ In "name" (map fst picked) /\ In ("name", opt TString) omitted.
Proof.
  apply (by_value_optional_field
           [("name", opt TString); ("age", req TNumber)] TString "name"
           (opt TString)).
  - repeat constructor; simpl; intuition discriminate.
  - left. reflexivity.
  - reflexivity.
  - reflexivity.
Defined.

(* ================================================================== *)
(** * 21. [object.ts]: object set operations *)
(* ================================================================== *)

Lemma in_keys_Extract n N K :
  in_keys (KName n) (Extract (Names N) (Names K))
  = name_in n N && name_in n K.
Proof.
  unfold in_keys. cbn [key_alt]. apply eq_true_iff_eq.
  rewrite mem_In, In_Extract, In_Names, ty_extends_Names, andb_true_iff,
    !name_in_In. reflexivity.
Qed.

Lemma ObjectSubtract_Rec fs gs :
  ObjectSubtract (Rec fs) (Rec gs)
  = Ok (Rec (filter (fun nf : string * prop =>
                       negb (name_in (fst nf) (map fst gs))) fs)).
Proof.
  unfold ObjectSubtract, Substract. cbn [extends_object Rec TRecord forallb
    alt_is_object andb requires].
  fold (TRecord (named fs)) (TRecord (named gs)). fold (Rec fs) (Rec gs).
  rewrite Pick_Rec, !keyof_Rec. do 2 f_equal. apply filter_ext_in.
  intros [n f] Hf. cbn [fst]. rewrite in_keys_Exclude.
  assert (Hn : In n (map fst fs)) by apply (in_map fst _ _ Hf).
  rewrite (proj2 (name_in_In _ _) Hn). reflexivity.
Qed.

Lemma ObjectIntersect_Rec fs gs :
  ObjectIntersect (Rec fs) (Rec gs)
  = Ok (Rec (filter (fun nf : string * prop =>
                       name_in (fst nf) (map fst gs)) fs)).
Proof.
  unfold ObjectIntersect, Intersect, distribute.
  cbn [extends_object Rec TRecord forallb alt_is_object andb requires
       flat_map].
  fold (TRecord (named fs)) (TRecord (named gs)). fold (Rec fs) (Rec gs).
  rewrite Pick_Rec, !keyof_Rec. cbn [app dedup filter Rec TRecord].
  unfold Rec, TRecord. do 4 f_equal. apply filter_ext_in.
  intros [n f] Hf. cbn [fst]. rewrite in_keys_Extract.
  assert (Hn : In n (map fst fs)) by apply (in_map fst _ _ Hf).
  rewrite (proj2 (name_in_In _ _) Hn). reflexivity.
Qed.

(** X8.  For two records [T] and [U], [ObjectIntersect<T, U>] keeps the
    fields of [T] whose name is a field name of [U] and
    [ObjectSubtract<T, U>] keeps the other fields of [T]; the fields are
    those of [T], unchanged and in the order of [T], whatever their type is
    in [U]. *)
Theorem object_intersect_subtract (fs gs : list (string * prop)) :
  ObjectIntersect (Rec fs) (Rec gs)
  = Ok (Rec (filter (fun nf => name_in (fst nf) (map fst gs)) fs))
  /\ ObjectSubtract (Rec fs) (Rec gs)
     = Ok (Rec (filter (fun nf => negb (name_in (fst nf) (map fst gs))) fs))
  /\ (forall n f,
        In (n, f) fs <->
        In (n, f) (filter (fun nf => name_in (fst nf) (map fst gs)) fs)
        \/ In (n, f)
             (filter (fun nf => negb (name_in (fst nf) (map fst gs))) fs)).
Proof.
  split; [apply ObjectIntersect_Rec|]. split; [apply ObjectSubtract_Rec|].
  intros n f. rewrite !filter_In. cbn [fst].
  destruct (name_in n (map fst gs)); cbn [negb]; intuition discriminate.
Qed.

(** A record that has every property of another, unchanged, is
    assignable to it. *)
Lemma record_extends_incl (fs gs : props) :
  incl gs fs -> alt_extends (AObj fs) (AObj gs) = true.
Proof.
  intros H. simpl. rewrite weak_rule_incl by exact H. rewrite andb_true_r.
  apply forallb_forall. intros g Hg. apply orb_true_iff. left.
  apply existsb_exists. exists g. split; [apply H, Hg|].
  rewrite (proj2 (key_eqb_spec _ _) eq_refl). simpl.
  destruct (optional (snd g)) eqn:Eo; simpl;
    apply forallb_forall; intros x Hx; apply existsb_exists; exists x;
    (split; [apply In_read, Hx | apply alt_extends_refl]).
Qed.

Lemma ty_extends_record fs gs :
  ty_extends (TRecord fs) (TRecord gs) = alt_extends (AObj fs) (AObj gs).
Proof.
  unfold ty_extends, TRecord. cbn [forallb existsb].
  rewrite orb_false_r, andb_true_r. reflexivity.
Qed.

(** X9.  [ObjectComplement<T, T1>] passes [keyof T] to [Complement], whose
    right-hand side does not use its second argument: on two records the
    result is never anything but the empty record, whatever fields [T] has
    that [T1] has not.  Either [T] fails the constraint [T extends T1], or
    the result is [{}]; and it is [{}] whenever [T] has every field of
    [T1]. *)
Theorem ObjectComplement_is_empty (fs gs : props) :
  (ObjectComplement (TRecord fs) (TRecord gs) = Ok (TRecord [])
   \/ ObjectComplement (TRecord fs) (TRecord gs)
      = Err StructuralPreconditionError)
  /\ (incl gs fs ->
      ObjectComplement (TRecord fs) (TRecord gs) = Ok (TRecord [])).
Proof.
  assert (E : Pick (TRecord fs)
                (Substract (keyof (TRecord fs)) (keyof (TRecord fs)))
              = TRecord []).
  { unfold Substract. rewrite Exclude_self. apply Pick_no_key. }
  unfold ObjectComplement. rewrite E, ty_extends_record.
  cbn [extends_object TRecord forallb alt_is_object andb requires].
  split.
  - destruct (alt_extends (AObj fs) (AObj gs)); auto.
  - intros H. rewrite (record_extends_incl _ _ H). reflexivity.
Qed.

Lemma ObjectComplement_is_empty_witness :
  ObjectComplement Props (Rec [("age", req TNumber)]) = Ok (TRecord []).
Proof.
  apply (ObjectComplement_is_empty
           (named PropsFields) (named [("age", req TNumber)])).
  intros x [<-|[]]. simpl. tauto.
Defined.

(* ================================================================== *)
(** * 22. [object.ts]: the merges on arbitrary records *)
(* ================================================================== *)

Lemma has_key_named n fs : has_key (KName n) (named fs) = name_in n (map fst fs).
Proof.
  unfold has_key, named, name_in. induction fs as [|[m f] fs IH];
    [reflexivity|].
  cbn [map existsb fst key_eqb]. rewrite IH, (String.eqb_sym m n).
  reflexivity.
Qed.

Lemma In_named n f fs : In (KName n, f) (named fs) <-> In (n, f) fs.
Proof.
  unfold named. rewrite in_map_iff. split.
  - intros [[m g] [E H]]. inversion E; subst. exact H.
  - intros H. exists (n, f). auto.
Qed.

Lemma named_key k f fs : In (k, f) (named fs) -> exists n, k = KName n.
Proof.
  unfold named. rewrite in_map_iff. intros [[m g] [E _]].
  inversion E; subst. eauto.
Qed.

Lemma lookup_absent k fs : has_key k fs = false -> lookup k fs = None.
Proof.
  unfold has_key, lookup. induction fs as [|f fs IH]; intros H;
    [reflexivity|].
  cbn [existsb find] in *. apply orb_false_iff in H. destruct H as [E H].
  rewrite E. apply IH, H.
Qed.

Lemma has_key_In k fs :
  has_key k fs = true <-> exists f, In (k, f) fs.
Proof.
  unfold has_key. rewrite existsb_exists. split.
  - intros [[l f] [H E]]. apply key_eqb_spec in E. cbn [fst] in E. subst.
    eauto.
  - intros [f H]. exists (k, f). split; [exact H|].
    apply key_eqb_spec. reflexivity.
Qed.

(** The intersection of two records with no key in common has the
    properties of both. *)
Lemma inter_disjoint_records (ds gs : props) :
  (forall f, In f ds -> has_key (fst f) gs = false) ->
  inter (TRecord ds) (TRecord gs) = TRecord (ds ++ gs).
Proof.
  intros H. unfold inter.
  destruct (ty_eqb (TRecord ds) (TRecord gs)) eqn:E.
  - assert (E' : TRecord ds = TRecord gs).
    { apply (list_eqb_spec _ alt_eqb); [|exact E].
      apply Forall_forall. intros x _. apply alt_eqb_spec. }
    inversion E'; subst gs. destruct ds as [|[k f] ds]; [reflexivity|].
    specialize (H (k, f) (or_introl eq_refl)).
    assert (T : has_key k ((k, f) :: ds) = true)
      by (apply has_key_In; exists f; left; reflexivity).
    cbn [fst] in H. congruence.
  - unfold TRecord. cbn [flat_map inter_alt app dedup filter].
    do 2 f_equal. f_equal.
    + rewrite <- (map_id ds) at 2. apply map_ext_in. intros f Hf.
      rewrite (lookup_absent _ _ (H f Hf)). reflexivity.
    + apply filter_id. intros [k g] Hg. cbn [fst]. apply negb_true_iff.
      destruct (has_key k ds) eqn:Ek; [|reflexivity].
      apply has_key_In in Ek. destruct Ek as [f Hf].
      specialize (H _ Hf). cbn [fst] in H.
      assert (T : has_key k gs = true) by (apply has_key_In; eauto).
      congruence.
Qed.

Lemma Extract_assignable a b :
  alt_extends a b = true -> Extract [a] [b] = [a].
Proof.
  intros H. unfold Extract, distribute, ty_extends.
  cbn [flat_map forallb existsb]. rewrite H. reflexivity.
Qed.

Lemma Extract_Rec_assignable gs fs :
  ty_extends (Rec gs) (Rec fs) = true -> Extract (Rec gs) (Rec fs) = Rec gs.
Proof.
  intros H. apply Extract_assignable.
  unfold ty_extends in H. cbn [Rec TRecord forallb existsb] in H.
  rewrite orb_false_r, andb_true_r in H. exact H.
Qed.

Lemma extends_object_Rec fs : extends_object (Rec fs) = true.
Proof. reflexivity. Qed.

Lemma named_app fs gs : named (fs ++ gs) = named fs ++ named gs.
Proof. apply map_app. Qed.

Lemma subtracted_disjoint fs gs f :
  In f (named (filter (fun nf : string * prop =>
                         negb (name_in (fst nf) (map fst gs))) fs)) ->
  has_key (fst f) (named gs) = false.
Proof.
  unfold named at 1. rewrite in_map_iff. intros [[n g] [<- H]].
  apply filter_In in H. destruct H as [_ H]. cbn [fst] in *.
  rewrite has_key_named. apply negb_true_iff, H.
Qed.

Lemma MergeOverride_when_assignable (fs gs : list (string * prop)) :
  ty_extends (Rec gs) (Rec fs) = true ->
  MergeOverride (Rec fs) (Rec gs)
  = Ok (Rec (filter (fun nf => negb (name_in (fst nf) (map fst gs))) fs
             ++ gs)).
Proof.
  intros H. unfold MergeOverride, Intersect.
  rewrite ObjectSubtract_Rec, (Extract_Rec_assignable _ _ H),
    !extends_object_Rec.
  cbn [requires bind]. unfold Rec.
  rewrite !(inter_disjoint_records _ _ (subtracted_disjoint fs gs)).
  rewrite Pick_all, <- named_app. reflexivity.
Qed.

Lemma ty_extends_Rec gs fs :
  ty_extends (Rec gs) (Rec fs) = alt_extends (AObj (named gs)) (AObj (named fs)).
Proof. apply ty_extends_record. Qed.

Lemma Rec_extends_incl (fs gs : list (string * prop)) :
  incl fs gs -> ty_extends (Rec gs) (Rec fs) = true.
Proof.
  intros H. rewrite ty_extends_Rec. apply record_extends_incl.
  intros kf Hkf. unfold named in *. apply in_map_iff in Hkf.
  destruct Hkf as [nf [<- Hnf]]. apply in_map_iff. exists nf.
  split; [reflexivity | apply H, Hnf].
Qed.

(** [U] is assignable to [T] when every field of [T] is a field of [U],
    unchanged, or is optional and has a name that [U] has not, and the two
    records share a field. *)
Lemma Rec_extends_compatible (fs gs : list (string * prop)) shared :
  In shared fs -> In shared gs ->
  (forall nf, In nf fs ->
     In nf gs \/ (optional (snd nf) = true /\ ~ In (fst nf) (map fst gs))) ->
  ty_extends (Rec gs) (Rec fs) = true.
Proof.
  intros Sf Sg H. rewrite ty_extends_Rec. simpl. apply andb_true_iff. split.
  - apply forallb_forall. intros g Hg. unfold named in Hg.
    apply in_map_iff in Hg. destruct Hg as [[n f] [<- Hnf]]. cbn [fst snd].
    apply orb_true_iff. destruct (H _ Hnf) as [Hin|[O Hn]].
    + left. apply existsb_exists. exists (KName n, f).
      split; [apply In_named, Hin|]. cbn [fst snd].
      rewrite (proj2 (key_eqb_spec _ _) eq_refl). simpl.
      destruct (optional f) eqn:Eo; simpl;
        apply forallb_forall; intros x Hx; apply existsb_exists; exists x;
        (split; [apply In_read, Hx | apply alt_extends_refl]).
    + right. cbn [fst snd] in O, Hn. rewrite O, has_key_named.
      apply name_in_false in Hn. rewrite Hn. reflexivity.
  - apply orb_true_iff. right. apply existsb_exists.
    exists (KName (fst shared), snd shared). split.
    + destruct shared as [n f]. apply In_named, Sg.
    + cbn [fst]. rewrite has_key_named. apply name_in_In.
      apply (in_map fst _ _ Sf).
Qed.

Lemma subtract_incl (fs gs : list (string * prop)) :
  incl fs gs ->
  filter (fun nf : string * prop => negb (name_in (fst nf) (map fst gs))) fs
  = [].
Proof.
  intros H. apply filter_none. intros nf Hnf. apply negb_false_iff.
  apply name_in_In, in_map, H, Hnf.
Qed.

(** A record that lacks a required field of another is not assignable to
    it. *)
Lemma missing_required_field (fs gs : list (string * prop)) n f :
  In (n, f) fs -> optional f = false -> ~ In n (map fst gs) ->
  alt_extends (AObj (named gs)) (AObj (named fs)) = false.
Proof.
  intros Hf O Hn. simpl. apply andb_false_iff. left.
  apply forallb_false. exists (KName n, f). split; [apply In_named, Hf|].
  cbn [fst snd]. rewrite O, andb_false_l, orb_false_r.
  destruct (existsb _ (named gs)) eqn:E; [|reflexivity].
  apply existsb_exists in E. destruct E as [[k g] [Hg E]].
  cbn [fst snd] in E. apply andb_true_iff in E. destruct E as [E _].
  apply andb_true_iff in E. destruct E as [E _].
  apply key_eqb_spec in E. subst k. apply In_named in Hg.
  destruct Hn. apply (in_map fst _ _ Hg).
Qed.

(** X10.  For two records [T] and [U], [MergeOverride<T, U>] has two
    possible values only: [Pick<never, keyof never>], a record with no
    named field, or the fields of [T] whose name [U] has not, followed by
    all the fields of [U].  When [U] has every field of [T], it is [U],
    with the fields that only [U] has.  It is the second value whenever
    the two records share a field and every other field of [T] is in [U]
    unchanged, or is optional with a name that [U] has not. *)
Theorem MergeOverride_outcomes (fs gs : list (string * prop)) :
  (MergeOverride (Rec fs) (Rec gs) = Ok never_record
   \/ MergeOverride (Rec fs) (Rec gs)
      = Ok (Rec (filter (fun nf => negb (name_in (fst nf) (map fst gs))) fs
                 ++ gs)))
  /\ (incl fs gs -> MergeOverride (Rec fs) (Rec gs) = Ok (Rec gs))
  /\ (forall shared,
        In shared fs -> In shared gs ->
        (forall nf, In nf fs ->
           In nf gs
           \/ (optional (snd nf) = true /\ ~ In (fst nf) (map fst gs))) ->
        MergeOverride (Rec fs) (Rec gs)
        = Ok (Rec (filter (fun nf => negb (name_in (fst nf) (map fst gs))) fs
                   ++ gs))).
Proof.
  split; [|split].
  - destruct (ty_extends (Rec gs) (Rec fs)) eqn:E.
    + right. apply MergeOverride_when_assignable, E.
    + left. rewrite ty_extends_Rec in E.
      apply MergeOverride_unassignable, E.
  - intros H.
    rewrite (MergeOverride_when_assignable _ _ (Rec_extends_incl _ _ H)).
    rewrite (subtract_incl _ _ H). reflexivity.
  - intros shared Sf Sg H. apply MergeOverride_when_assignable.
    apply (Rec_extends_compatible fs gs shared Sf Sg H).
Qed.

Lemma MergeOverride_outcomes_witness :
  MergeOverride (Rec [("a", req TString)])
                (Rec [("a", req TString); ("b", req TNumber)])
  = Ok (Rec [("a", req TString); ("b", req TNumber)])
  /\ MergeOverride (Rec [("a", req TString); ("c", opt TBoolean)])
                   (Rec [("a", req TString); ("b", req TNumber)])
     = Ok (Rec [("c", opt TBoolean); ("a", req TString); ("b", req TNumber)]).
Proof.
  split.
  - apply (MergeOverride_outcomes
             [("a", req TString)]
             [("a", req TString); ("b", req TNumber)]).
    intros x [<-|[]]. simpl. tauto.
  - apply (MergeOverride_outcomes
             [("a", req TString); ("c", opt TBoolean)]
             [("a", req TString); ("b", req TNumber)]
           ) with (shared := ("a", req TString)).
    + simpl. tauto.
    + simpl. tauto.
    + intros nf [<-|[<-|[]]]; simpl.
      * left. tauto.
      * right. split; [reflexivity | intuition discriminate].
Defined.

(** X11.  When the record [T] has a required field whose name the record
    [U] has not, [U] is not assignable to [T], [Intersect<U, T>] is
    [never], and both [MergeOverride<T, U>] and [Merge<T, U>] evaluate to
    [Pick<never, keyof never>], a record with no named field. *)
Theorem merges_missing_required_field
  (fs gs : list (string * prop)) (n : string) (f : prop) :
  In (n, f) fs -> optional f = false -> ~ In n (map fst gs) ->
  Intersect (Rec gs) (Rec fs) = never
  /\ MergeOverride (Rec fs) (Rec gs) = Ok never_record
  /\ Merge (Rec fs) (Rec gs) = Ok never_record.
Proof.
  intros Hf O Hn.
  pose proof (missing_required_field fs gs n f Hf O Hn) as E.
  split; [apply Intersect_unassignable, E|].
  split; [apply MergeOverride_unassignable | apply Merge_unassignable];
    exact E.
Qed.

Lemma merges_missing_required_field_witness :
  Intersect NewProps Props = never
  /\ MergeOverride Props NewProps = Ok never_record
  /\ Merge Props NewProps = Ok never_record.
Proof.
  apply (merges_missing_required_field
           PropsFields [("age", req TString); ("other", req TString)]
           "name" (req TString)).
  - simpl. tauto.
  - reflexivity.
  - simpl. intuition discriminate.
Defined.

Lemma lookup_Some_In k fs g : lookup k fs = Some g -> In (k, g) fs.
Proof.
  unfold lookup. destruct (find _ fs) as [[l f]|] eqn:E; [|discriminate].
  intros H. inversion H; subst. apply find_some in E. destruct E as [E K].
  apply key_eqb_spec in K. cbn [fst] in K. subst. exact E.
Qed.

Lemma ty_eqb_refl t : ty_eqb t t = true.
Proof.
  apply (list_eqb_spec _ alt_eqb); [|reflexivity].
  apply Forall_forall. intros x _. apply alt_eqb_spec.
Qed.

(** Intersecting a record with a record made of some of its own
    properties changes nothing. *)
Lemma inter_absorb (ps es : props) :
  (forall k f g, In (k, f) ps -> lookup k es = Some g -> g = f) ->
  (forall g, In g es -> has_key (fst g) ps = true) ->
  inter (TRecord ps) (TRecord es) = TRecord ps.
Proof.
  intros Hsame Hsub. unfold inter.
  destruct (ty_eqb (TRecord ps) (TRecord es)); [reflexivity|].
  unfold TRecord. cbn [flat_map inter_alt app dedup filter].
  do 2 f_equal. rewrite filter_none; [rewrite app_nil_r|].
  - rewrite <- (map_id ps) at 2. apply map_ext_in. intros [k f] Hf.
    cbn [fst snd]. destruct (lookup k es) as [g|] eqn:E; [|reflexivity].
    rewrite (Hsame _ _ _ Hf E). fold (ty_eqb (shape f) (shape f)).
    rewrite ty_eqb_refl, !andb_diag. destruct f; reflexivity.
  - intros g Hg. rewrite (Hsub g Hg). reflexivity.
Qed.


Lemma Merge_when_assignable (fs gs : list (string * prop)) :
  NoDup (map fst gs) ->
  ty_extends (Rec gs) (Rec fs) = true ->
  Merge (Rec fs) (Rec gs)
  = Ok (Rec (filter (fun nf => negb (name_in (fst nf) (map fst gs))) fs
             ++ gs)).
Proof.
  intros N H. unfold Merge, Intersect.
  rewrite !ObjectSubtract_Rec, (Extract_Rec_assignable _ _ H),
    !extends_object_Rec.
  cbn [requires bind]. unfold Rec.
  rewrite !(inter_disjoint_records _ _ (subtracted_disjoint fs gs)).
  rewrite !inter_absorb.
  - rewrite Pick_all, <- named_app. reflexivity.
  - intros k f g Hf Hg. apply lookup_Some_In in Hg.
    destruct (named_key _ _ _ Hg) as [n ->].
    apply In_named, filter_In in Hg. destruct Hg as [Hg _].
    apply in_app_iff in Hf. destruct Hf as [Hf|Hf].
    + apply subtracted_disjoint in Hf. cbn [fst] in Hf.
      rewrite has_key_named in Hf. apply name_in_false in Hf.
      destruct Hf. apply (in_map fst _ _ Hg).
    + apply In_named in Hf. apply (unique_field _ _ _ _ N Hg Hf).
  - intros [k g] Hg. destruct (named_key _ _ _ Hg) as [n ->].
    apply In_named, filter_In in Hg. destruct Hg as [Hg _]. cbn [fst].
    apply has_key_In. exists g. apply in_or_app. right.
    apply In_named, Hg.
Qed.

(** X12.  For two records [T] and [U], the field names of [U] distinct,
    [Merge<T, U>] has the same two possible values as
    [MergeOverride<T, U>]: [Pick<never, keyof never>], or the fields of [T]
    whose name [U] has not, followed by all the fields of [U].  When [U]
    has every field of [T], it is [U]; it is the second value whenever the
    two records share a field and every other field of [T] is in [U]
    unchanged, or is optional with a name that [U] has not. *)
Theorem Merge_outcomes (fs gs : list (string * prop)) :
  NoDup (map fst gs) ->
  (Merge (Rec fs) (Rec gs) = Ok never_record
   \/ Merge (Rec fs) (Rec gs)
      = Ok (Rec (filter (fun nf => negb (name_in (fst nf) (map fst gs))) fs
                 ++ gs)))
  /\ (incl fs gs -> Merge (Rec fs) (Rec gs) = Ok (Rec gs))
  /\ (forall shared,
        In shared fs -> In shared gs ->
        (forall nf, In nf fs ->
           In nf gs
           \/ (optional (snd nf) = true /\ ~ In (fst nf) (map fst gs))) ->
        Merge (Rec fs) (Rec gs)
        = Ok (Rec (filter (fun nf => negb (name_in (fst nf) (map fst gs))) fs
                   ++ gs))).
Proof.
  intros N. split; [|split].
  - destruct (ty_extends (Rec gs) (Rec fs)) eqn:E.
    + right. apply Merge_when_assignable; assumption.
    + left. rewrite ty_extends_Rec in E. apply Merge_unassignable, E.
  - intros H.
    rewrite (Merge_when_assignable _ _ N (Rec_extends_incl _ _ H)).
    rewrite (subtract_incl _ _ H). reflexivity.
  - intros shared Sf Sg H. apply (Merge_when_assignable _ _ N).
    apply (Rec_extends_compatible fs gs shared Sf Sg H).
Qed.

Lemma Merge_outcomes_witness :
  Merge (Rec [("a", req TString)])
        (Rec [("a", req TString); ("b", req TNumber)])
  = Ok (Rec [("a", req TString); ("b", req TNumber)])
  /\ Merge (Rec [("a", req TString); ("c", opt TBoolean)])
           (Rec [("a", req TString); ("b", req TNumber)])
     = Ok (Rec [("c", opt TBoolean); ("a", req TString); ("b", req TNumber)]).
Proof.
  assert (N : NoDup (map fst [("a", req TString); ("b", req TNumber)]))
    by (repeat constructor; simpl; intuition discriminate).
  split.
  - apply (Merge_outcomes
             [("a", req TString)]
             [("a", req TString); ("b", req TNumber)] N).
    intros x [<-|[]]. simpl. tauto.
  - apply (Merge_outcomes
             [("a", req TString); ("c", opt TBoolean)]
             [("a", req TString); ("b", req TNumber)] N
           ) with (shared := ("a", req TString)).
    + simpl. tauto.
    + simpl. tauto.
    + intros nf [<-|[<-|[]]]; simpl.
      * left. tauto.
      * right. split; [reflexivity | intuition discriminate].
Defined.

(* ================================================================== *)
(** * 23. [object.ts]: MergeExclusive on arbitrary records *)
(* ================================================================== *)

(** X13.  [MergeExclusive<T, T>] is [T]: a record is not exclusive with
    itself. *)
Theorem MergeExclusive_self (fs : props) :
  MergeExclusive (TRecord fs) (TRecord fs) = Ok (TRecord fs).
Proof.
  unfold MergeExclusive, _Without. rewrite Exclude_self.
  cbn [keys_of flat_map never map]. fold (TRecord []).
  rewrite inter_empty_record. unfold union, TRecord.
  cbn [app dedup filter extends_object forallb alt_is_object andb].
  rewrite alt_eqb_refl. reflexivity.
Qed.


(** X14.  [MergeExclusive] does not depend on the order of its arguments,
    up to the order of the alternatives of the result. *)
Theorem MergeExclusive_symmetric (F S : ty) :
  exists t t',
    MergeExclusive F S = Ok t /\ MergeExclusive S F = Ok t'
    /\ forall a, In a t <-> In a t'.
Proof.
  unfold MergeExclusive, extends_object.
  rewrite (forallb_same_members _ alt_is_object (union S F) (union F S))
    by (intros x; rewrite !In_union; tauto).
  destruct (forallb alt_is_object (union F S)); eexists; eexists;
    (split; [reflexivity|]); (split; [reflexivity|]);
    intros a; rewrite !In_union; tauto.
Qed.

Lemma In_keys_of k K : In k (keys_of K) <-> In (key_alt k) K.
Proof.
  unfold keys_of. rewrite in_flat_map. split.
  - intros [a [Ha H]]. destruct a as [[]|s| | | |]; cbn [alt_key] in H;
      destruct H as [<-|[]] || destruct H; exact Ha.
  - intros H. exists (key_alt k). split; [exact H|].
    destruct k; left; reflexivity.
Qed.

Lemma In_keys_of_Exclude k A B :
  In k (keys_of (Exclude (Names A) (Names B)))
  <-> exists n, k = KName n /\ In n A /\ ~ In n B.
Proof.
  rewrite In_keys_of, In_Exclude. split.
  - intros [H E]. unfold Names in H. apply in_map_iff in H.
    destruct H as [n [E' Hn]]. destruct k; try discriminate.
    cbn [key_alt] in *. inversion E'; subst. eexists.
    split; [reflexivity|].
    rewrite ty_extends_Names in E. apply name_in_false in E. auto.
  - intros [n [-> [Ha Hb]]]. cbn [key_alt]. split; [apply In_Names, Ha|].
    rewrite ty_extends_Names. apply name_in_false, Hb.
Qed.

Lemma Without_disjoint A gs f :
  In f (map (fun k => (k, impossible))
          (keys_of (Exclude (Names A) (Names (map fst gs))))) ->
  has_key (fst f) (named gs) = false.
Proof.
  rewrite in_map_iff. intros [k [<- H]]. apply In_keys_of_Exclude in H.
  destruct H as [n [-> [_ H]]]. cbn [fst]. rewrite has_key_named.
  apply name_in_false, H.
Qed.

Lemma exclusive_variant_eq fs gs :
  inter (_Without (Rec fs) (Rec gs)) (Rec gs) = [exclusive_variant fs gs].
Proof.
  unfold _Without. rewrite !keyof_Rec. unfold Rec.
  fold (TRecord (map (fun k => (k, impossible))
                   (keys_of (Exclude (Names (map fst fs))
                                     (Names (map fst gs)))))).
  rewrite (inter_disjoint_records _ _ (Without_disjoint (map fst fs) gs)).
  reflexivity.
Qed.

Lemma lookup_marked k c ks rest :
  In k ks -> lookup k (map (fun k => (k, c)) ks ++ rest) = Some c.
Proof.
  unfold lookup. induction ks as [|l ks IH]; intros H; [destruct H|].
  cbn [map app find fst]. destruct (key_eqb l k) eqn:E; [reflexivity|].
  destruct H as [->|H]; [|apply IH, H].
  rewrite (proj2 (key_eqb_spec k k) eq_refl) in E. discriminate.
Qed.

Lemma conforms_impossible present x fs gs :
  In x (map fst fs) -> ~ In x (map fst gs) -> In (KName x) present ->
  conforms present (exclusive_variant fs gs) = false.
Proof.
  intros Hx Hn Hp. unfold conforms. apply andb_false_iff. left.
  destruct (forallb _ present) eqn:F; [|reflexivity].
  rewrite forallb_forall in F. specialize (F _ Hp).
  unfold exclusive_variant in F. cbn [props_of] in F.
  rewrite lookup_marked in F; [discriminate|].
  apply In_keys_of_Exclude. exists x. auto.
Qed.

(** X15.  For two records [T] and [U], [MergeExclusive<T, U>] is the union
    of two records: the fields of [U] preceded by [k?: never] for every
    name [k] that only [T] has, and the fields of [T] preceded by
    [k?: never] for every name that only [U] has.  An instance that
    supplies a field that only [T] has together with a field that only [U]
    has conforms to neither. *)
Theorem MergeExclusive_records (fs gs : list (string * prop)) :
  MergeExclusive (Rec fs) (Rec gs)
  = Ok (union [exclusive_variant fs gs] [exclusive_variant gs fs])
  /\ forall x y present,
       In x (map fst fs) -> ~ In x (map fst gs) ->
       In y (map fst gs) -> ~ In y (map fst fs) ->
       In (KName x) present -> In (KName y) present ->
       conforms present (exclusive_variant fs gs) = false
       /\ conforms present (exclusive_variant gs fs) = false.
Proof.
  split.
  - unfold MergeExclusive. rewrite !exclusive_variant_eq.
    replace (extends_object (union (Rec fs) (Rec gs))) with true;
      [reflexivity|].
    symmetry. rewrite extends_object_union. reflexivity.
  - intros x y present Hx Hxn Hy Hyn Px Py. split.
    + apply (conforms_impossible present x); assumption.
    + apply (conforms_impossible present y); assumption.
Qed.

Lemma MergeExclusive_records_witness :
  MergeExclusive (Rec [("exclusive1", req TBoolean)])
                 (Rec [("exclusive2", req TString)])
  = Ok (union [exclusive_variant [("exclusive1", req TBoolean)]
                                 [("exclusive2", req TString)]]
              [exclusive_variant [("exclusive2", req TString)]
                                 [("exclusive1", req TBoolean)]])
  /\ conforms [KName "exclusive1"; KName "exclusive2"]
       (exclusive_variant [("exclusive1", req TBoolean)]
                          [("exclusive2", req TString)]) = false
  /\ conforms [KName "exclusive1"; KName "exclusive2"]
       (exclusive_variant [("exclusive2", req TString)]
                          [("exclusive1", req TBoolean)]) = false.
Proof.
  destruct (MergeExclusive_records [("exclusive1", req TBoolean)]
                                   [("exclusive2", req TString)]) as [E H].
  split; [exact E|].
  apply (H "exclusive1" "exclusive2"); simpl; intuition discriminate.
Defined.

Lemma lookup_app_absent k ws rest :
  has_key k ws = false -> lookup k (ws ++ rest) = lookup k rest.
Proof.
  unfold has_key, lookup. induction ws as [|f ws IH]; intros H;
    [reflexivity|].
  cbn [existsb app find] in *. apply orb_false_iff in H.
  destruct H as [E H]. rewrite E. apply IH, H.
Qed.

Lemma lookup_named n gs :
  In n (map fst gs) -> exists f, lookup (KName n) (named gs) = Some f
                                 /\ In (n, f) gs.
Proof.
  intros H. destruct (lookup (KName n) (named gs)) as [f|] eqn:E.
  - exists f. split; [reflexivity|]. apply In_named, lookup_Some_In, E.
  - assert (K : has_key (KName n) (named gs) = true)
      by (rewrite has_key_named; apply name_in_In, H).
    unfold has_key in K. unfold lookup in E.
    destruct (find _ (named gs)) as [kf|] eqn:F; [discriminate|].
    apply existsb_exists in K. destruct K as [kf [Hkf K]].
    rewrite (find_none _ _ F _ Hkf) in K. discriminate.
Qed.

(** X16.  An instance that supplies exactly the fields of [U] conforms to
    the alternative [_Without<T, U> & U] of [MergeExclusive<T, U>], provided
    each field of [U] can be given a value: either side alone is
    accepted. *)
Theorem MergeExclusive_accepts_one_side (fs gs : list (string * prop)) :
  (forall nf, In nf gs -> suppliable (snd nf) = true) ->
  conforms (map KName (map fst gs)) (exclusive_variant fs gs) = true.
Proof.
  intros Hs. unfold conforms, exclusive_variant. cbn [props_of].
  apply andb_true_iff. split.
  - apply forallb_forall. intros k Hk. apply in_map_iff in Hk.
    destruct Hk as [n [<- Hn]].
    rewrite lookup_app_absent.
    + destruct (lookup_named n gs Hn) as [f [-> Hf]].
      apply (Hs (n, f) Hf).
    + destruct (has_key (KName n) _) eqn:E; [|reflexivity].
      apply has_key_In in E. destruct E as [f E].
      apply in_map_iff in E. destruct E as [k [E Hk]].
      inversion E; subst. apply In_keys_of_Exclude in Hk.
      destruct Hk as [m [Em [_ Hm]]]. inversion Em; subst. contradiction.
  - apply forallb_forall. intros [k f] Hf. apply in_app_iff in Hf.
    destruct Hf as [Hf|Hf].
    + apply in_map_iff in Hf. destruct Hf as [l [E _]].
      inversion E; subst. reflexivity.
    + destruct (named_key _ _ _ Hf) as [n ->]. apply In_named in Hf.
      cbn [fst snd]. apply orb_true_iff. right. apply existsb_exists.
      exists (KName n). split.
      * apply in_map, (in_map fst _ _ Hf).
      * apply key_eqb_spec. reflexivity.
Qed.

Lemma MergeExclusive_accepts_one_side_witness :
  conforms (map KName (map fst [("exclusive2", req TString)]))
    (exclusive_variant [("exclusive1", req TBoolean)]
                       [("exclusive2", req TString)]) = true.
Proof.
  apply (MergeExclusive_accepts_one_side
           [("exclusive1", req TBoolean)] [("exclusive2", req TString)]).
  intros nf [<-|[]]. reflexivity.
Defined.

(* ================================================================== *)
(** * 24. [object.ts]: what the deep transforms establish *)
(* ================================================================== *)


Lemma In_add_undefined_inv y t :
  In y (add_undefined t) -> In y t \/ y = undefined.
Proof.
  unfold add_undefined. destruct (existsb is_undefined t); [auto|].
  intros H. apply in_app_iff in H. destruct H as [H|[<-|[]]]; auto.
Qed.

Lemma forallb_distribute (p : alt -> bool) (g : alt -> ty) (t : ty) :
  Forall (fun a => forall y, In y (g a) -> p y = true) t ->
  forallb p (distribute g t) = true.
Proof.
  intros H. apply forallb_forall. intros y Hy. apply In_distribute in Hy.
  destruct Hy as [a [Ha Hy]]. apply (Forall_In _ _ _ _ H Ha), Hy.
Qed.

Lemma forallb_add_undefined (p : alt -> bool) (t : ty) :
  p undefined = true -> forallb p t = true ->
  forallb p (add_undefined t) = true.
Proof.
  intros Hu H. apply forallb_forall. intros y Hy.
  apply In_add_undefined_inv in Hy. destruct Hy as [Hy| ->]; [|exact Hu].
  rewrite forallb_forall in H. apply H, Hy.
Qed.

Lemma DeepPartial_alt_fields a :
  forall y, In y (DeepPartial_alt a) ->
            all_fields_alt (fun f => optional f && admits_undefined f) y = true.
Proof.
  induction a as [p|s| |ro e IH|fs IH|r o e IH] using alt_nested_ind;
    intros y Hy.
  - pose proof (DeepPartial_alt_leaf_image (APrim p) y eq_refl Hy) as L.
    destruct y; try discriminate; reflexivity.
  - pose proof (DeepPartial_alt_leaf_image (ALit s) y eq_refl Hy) as L.
    destruct y; try discriminate; reflexivity.
  - destruct Hy as [<-|[]]. reflexivity.
  - pose proof (forallb_distribute _ _ _ IH) as E.
    destruct ro; destruct Hy as [<-|[]];
      cbn [DeepPartial_alt mapped_elem all_fields_alt]; [|exact E].
    apply forallb_add_undefined; [reflexivity | exact E].
  - destruct Hy as [<-|[]]. cbn [DeepPartial_alt all_fields_alt].
    apply forallb_forall. intros kf Hkf. apply in_map_iff in Hkf.
    destruct Hkf as [[k f] [<- Hf]]. cbn [fst snd]. unfold mapped.
    cbn [shape optional andb]. unfold admits_undefined. cbn [shape].
    rewrite (proj2 (existsb_is_undefined _) (add_undefined_In _)).
    apply forallb_add_undefined; [reflexivity|].
    apply (forallb_distribute _ _ _ (Forall_In _ _ _ _ IH Hf)).
  - destruct Hy as [<-|[]].
    cbn [DeepPartial_alt mapped_elem all_fields_alt].
    apply forallb_add_undefined; [reflexivity|].
    apply (forallb_distribute _ _ _ IH).
Qed.

(** X17.  In [DeepPartial<S>] every field, at every nesting depth, is
    optional and its type admits [undefined]. *)
Theorem DeepPartial_fields (S : ty) :
  all_fields (fun f => optional f && admits_undefined f) (DeepPartial S)
  = true.
Proof.
  apply forallb_distribute, Forall_forall. intros a _.
  apply DeepPartial_alt_fields.
Qed.

Lemma DeepReadonly_alt_fields a :
  forall y, In y (DeepReadonly_alt a) ->
            all_fields_alt (fun f => readonly f) y = true
            /\ arrays_readonly_alt y = true.
Proof.
  induction a as [p|s| |ro e IH|fs IH|r o e IH] using alt_nested_ind;
    intros y Hy.
  - destruct Hy as [<-|[]]. split; reflexivity.
  - destruct Hy as [<-|[]]. split; reflexivity.
  - destruct Hy as [<-|[]]. split; reflexivity.
  - assert (E : forallb (all_fields_alt (fun f => readonly f))
                  (distribute DeepReadonly_alt e) = true
                /\ forallb arrays_readonly_alt
                     (distribute DeepReadonly_alt e) = true).
    { split; apply forallb_distribute; apply Forall_forall; intros x Hx z Hz;
        apply (Forall_In _ _ _ _ IH Hx), Hz. }
    destruct ro; destruct Hy as [<-|[]];
      cbn [DeepReadonly_alt mapped_elem all_fields_alt arrays_readonly_alt
           andb]; exact E.
  - destruct Hy as [<-|[]].
    cbn [DeepReadonly_alt all_fields_alt arrays_readonly_alt].
    split; apply forallb_forall; intros kf Hkf; apply in_map_iff in Hkf;
      destruct Hkf as [[k f] [<- Hf]]; cbn [fst snd]; unfold mapped;
      cbn [shape readonly andb].
    + destruct (optional f); [apply forallb_add_undefined; [reflexivity|]|];
        apply forallb_distribute, Forall_forall; intros x Hx z Hz;
        apply (Forall_In _ _ _ _ (Forall_In _ _ _ _ IH Hf) Hx), Hz.
    + destruct (optional f); [apply forallb_add_undefined; [reflexivity|]|];
        apply forallb_distribute, Forall_forall; intros x Hx z Hz;
        apply (Forall_In _ _ _ _ (Forall_In _ _ _ _ IH Hf) Hx), Hz.
  - assert (E : forallb (all_fields_alt (fun f => readonly f))
                  (distribute DeepReadonly_alt e) = true
                /\ forallb arrays_readonly_alt
                     (distribute DeepReadonly_alt e) = true).
    { split; apply forallb_distribute; apply Forall_forall; intros x Hx z Hz;
        apply (Forall_In _ _ _ _ IH Hx), Hz. }
    destruct Hy as [<-|[]].
    cbn [DeepReadonly_alt mapped_elem all_fields_alt arrays_readonly_alt].
    exact E.
Qed.

(** X18.  In [DeepReadonly<S>] every field, at every nesting depth, is
    [readonly] and every array is a [ReadonlyArray]; the fields of a record
    keep their names, their order and their [?]. *)
Theorem DeepReadonly_fields (S : ty) :
  all_fields (fun f => readonly f) (DeepReadonly S) = true
  /\ arrays_readonly (DeepReadonly S) = true
  /\ forall fs, optional_flags (DeepReadonly (TRecord fs))
                = optional_flags (TRecord fs).
Proof.
  split; [|split].
  - apply forallb_distribute, Forall_forall. intros a _ y Hy.
    apply (DeepReadonly_alt_fields a y Hy).
  - apply forallb_distribute, Forall_forall. intros a _ y Hy.
    apply (DeepReadonly_alt_fields a y Hy).
  - intros fs. unfold DeepReadonly, distribute, TRecord, optional_flags.
    cbn [flat_map DeepReadonly_alt app dedup filter map props_of].
    f_equal. rewrite map_map. apply map_ext. intros [k f]. reflexivity.
Qed.

(** ** How the transforms compose *)

Ltac skip_side_conditions :=
  first
    [ strip_side_conditions
    | intros ?; unfold skip_undefined; rewrite ty_extends_undefined;
      apply is_undefined_prim
    | intros ?; unfold skip_nullish; rewrite ty_extends_nullish;
      apply is_nullish_prim ].

Lemma DeepRequired_alt_array ro e :
  DeepRequired_alt (AArr ro e)
  = [AArr ro (distribute (stripped skip_undefined DeepRequired_alt) e)].
Proof.
  destruct ro; [|reflexivity]. cbn [DeepRequired_alt]. do 2 f_equal.
  apply (stripped_remove_undefined skip_undefined DeepRequired_alt);
    skip_side_conditions.
Qed.

Lemma DeepRequired_alt_object fs :
  DeepRequired_alt (AObj fs)
  = [AObj (map (fun f : key * prop =>
                  (fst f,
                   Field (distribute (stripped skip_undefined DeepRequired_alt)
                            (shape (snd f)))
                     false (readonly (snd f)))) fs)].
Proof.
  cbn [DeepRequired_alt]. do 2 f_equal. apply map_ext. intros f. f_equal.
  apply (stripped_mapped skip_undefined DeepRequired_alt);
    skip_side_conditions.
Qed.

Lemma DeepRequired_alt_interface r o e :
  DeepRequired_alt (AIface r o e)
  = [AIface r false (distribute (stripped skip_undefined DeepRequired_alt) e)].
Proof.
  cbn [DeepRequired_alt]. do 2 f_equal.
  apply (stripped_remove_undefined skip_undefined DeepRequired_alt);
    skip_side_conditions.
Qed.

Lemma DeepNonNullable_alt_array ro e :
  DeepNonNullable_alt (AArr ro e)
  = [AArr ro (distribute (stripped skip_nullish DeepNonNullable_alt) e)].
Proof.
  destruct ro; [|reflexivity]. cbn [DeepNonNullable_alt]. do 2 f_equal.
  apply (stripped_remove_undefined skip_nullish DeepNonNullable_alt);
    skip_side_conditions.
Qed.

Lemma DeepNonNullable_alt_object fs :
  DeepNonNullable_alt (AObj fs)
  = [AObj (map (fun f : key * prop =>
                  (fst f,
                   Field (distribute (stripped skip_nullish DeepNonNullable_alt)
                            (shape (snd f)))
                     false (readonly (snd f)))) fs)].
Proof.
  cbn [DeepNonNullable_alt]. do 2 f_equal. apply map_ext. intros f. f_equal.
  apply (stripped_mapped skip_nullish DeepNonNullable_alt);
    skip_side_conditions.
Qed.

Lemma DeepNonNullable_alt_interface r o e :
  DeepNonNullable_alt (AIface r o e)
  = [AIface r false
       (distribute (stripped skip_nullish DeepNonNullable_alt) e)].
Proof.
  cbn [DeepNonNullable_alt]. do 2 f_equal.
  apply (stripped_remove_undefined skip_nullish DeepNonNullable_alt);
    skip_side_conditions.
Qed.

Lemma DeepRequired_fixes_stripped_nullish s :
  Forall (fun a => forall y, In y (DeepNonNullable_alt a) ->
                             DeepRequired_alt y = [y]) s ->
  distribute (stripped skip_undefined DeepRequired_alt)
    (distribute (stripped skip_nullish DeepNonNullable_alt) s)
  = distribute (stripped skip_nullish DeepNonNullable_alt) s.
Proof.
  intros IH. apply distribute_fixed; [apply NoDup_distribute|].
  intros y Hy.
  assert (C : skip_nullish y = false).
  { revert Hy. apply stripped_clean; skip_side_conditions. }
  unfold skip_nullish in C. rewrite ty_extends_nullish in C.
  unfold stripped at 1, skip_undefined. rewrite ty_extends_undefined.
  assert (U : is_undefined y = false)
    by (destruct y as [[]| | | | |]; try reflexivity; discriminate).
  rewrite U. apply In_distribute in Hy. destruct Hy as [x [Hx Hy]].
  unfold stripped in Hy. destruct (skip_nullish x); [destruct Hy|].
  apply (Forall_In _ _ _ _ IH Hx), Hy.
Qed.

Lemma DeepRequired_fixes_DeepNonNullable_alt a :
  forall y, In y (DeepNonNullable_alt a) -> DeepRequired_alt y = [y].
Proof.
  induction a as [p|s| |ro e IH|fs IH|r o e IH] using alt_nested_ind;
    intros y Hy.
  - destruct Hy as [<-|[]]. reflexivity.
  - destruct Hy as [<-|[]]. reflexivity.
  - destruct Hy as [<-|[]]. reflexivity.
  - rewrite DeepNonNullable_alt_array in Hy. destruct Hy as [<-|[]].
    rewrite DeepRequired_alt_array.
    rewrite (DeepRequired_fixes_stripped_nullish e IH). reflexivity.
  - rewrite DeepNonNullable_alt_object in Hy. destruct Hy as [<-|[]].
    rewrite DeepRequired_alt_object. do 2 f_equal. rewrite map_map.
    apply map_ext_in. intros [k f] Hf. cbn [fst snd shape readonly].
    do 2 f_equal.
    apply (DeepRequired_fixes_stripped_nullish
             (shape f) (Forall_In _ _ _ _ IH Hf)).
  - rewrite DeepNonNullable_alt_interface in Hy. destruct Hy as [<-|[]].
    rewrite DeepRequired_alt_interface.
    rewrite (DeepRequired_fixes_stripped_nullish e IH). reflexivity.
Qed.

(** X19.  [DeepRequired] changes nothing in a [DeepNonNullable] type:
    [DeepRequired<DeepNonNullable<S>> = DeepNonNullable<S>]. *)
Theorem DeepRequired_after_DeepNonNullable (S : ty) :
  DeepRequired (DeepNonNullable S) = DeepNonNullable S.
Proof.
  apply distribute_fixed; [apply NoDup_distribute|].
  intros y Hy. apply In_distribute in Hy. destruct Hy as [a [_ Hy]].
  apply (DeepRequired_fixes_DeepNonNullable_alt a y Hy).
Qed.

Lemma distribute_stripped_add_undefined (skip : alt -> bool) (g : alt -> ty) t :
  skip undefined = true ->
  distribute (stripped skip g) (add_undefined t)
  = distribute (stripped skip g) t.
Proof.
  intros Hu. unfold add_undefined.
  destruct (existsb is_undefined t); [reflexivity|].
  unfold distribute. rewrite flat_map_app. cbn [flat_map].
  unfold stripped at 2. rewrite Hu, !app_nil_r. reflexivity.
Qed.

Lemma stripped_required_not_undefined y :
  is_undefined y = false ->
  stripped skip_undefined DeepRequired_alt y = DeepRequired_alt y.
Proof.
  intros H. unfold stripped, skip_undefined.
  rewrite ty_extends_undefined, H. reflexivity.
Qed.

Lemma DeepRequired_undoes_partial_list s :
  Forall (fun a =>
            flat_map (stripped skip_undefined DeepRequired_alt)
              (DeepPartial_alt a)
            = stripped skip_undefined DeepRequired_alt a) s ->
  distribute (stripped skip_undefined DeepRequired_alt)
    (distribute DeepPartial_alt s)
  = distribute (stripped skip_undefined DeepRequired_alt) s.
Proof.
  intros IH. rewrite distribute_distribute. apply distribute_ext.
  intros x Hx. apply (Forall_In _ _ _ _ IH Hx).
Qed.

Lemma DeepRequired_undoes_partial_alt a :
  flat_map (stripped skip_undefined DeepRequired_alt) (DeepPartial_alt a)
  = stripped skip_undefined DeepRequired_alt a.
Proof.
  induction a as [p|s| |ro e IH|fs IH|r o e IH] using alt_nested_ind.
  - destruct p; reflexivity.
  - reflexivity.
  - reflexivity.
  - pose proof (DeepRequired_undoes_partial_list e IH) as E.
    rewrite (stripped_required_not_undefined (AArr ro e) eq_refl).
    rewrite DeepRequired_alt_array.
    destruct ro; cbn [DeepPartial_alt mapped_elem flat_map];
      rewrite stripped_required_not_undefined by reflexivity;
      rewrite DeepRequired_alt_array, app_nil_r,
        ?distribute_stripped_add_undefined, E by reflexivity;
      reflexivity.
  - rewrite (stripped_required_not_undefined (AObj fs) eq_refl).
    cbn [DeepPartial_alt flat_map].
    rewrite stripped_required_not_undefined by reflexivity.
    rewrite !DeepRequired_alt_object, app_nil_r. do 2 f_equal.
    rewrite map_map. apply map_ext_in. intros [k f] Hf.
    cbn [fst snd]. unfold mapped. cbn [shape readonly]. do 2 f_equal.
    rewrite distribute_stripped_add_undefined by reflexivity.
    apply (DeepRequired_undoes_partial_list
             (shape f) (Forall_In _ _ _ _ IH Hf)).
  - pose proof (DeepRequired_undoes_partial_list e IH) as E.
    rewrite (stripped_required_not_undefined (AIface r o e) eq_refl).
    rewrite DeepRequired_alt_interface.
    cbn [DeepPartial_alt mapped_elem flat_map].
    rewrite stripped_required_not_undefined by reflexivity.
    rewrite DeepRequired_alt_interface, app_nil_r,
      distribute_stripped_add_undefined, E by reflexivity.
    reflexivity.
Qed.

(** X20.  [DeepRequired] undoes [DeepPartial] on a record:
    [DeepRequired<DeepPartial<R>> = DeepRequired<R>]. *)
Theorem DeepRequired_after_DeepPartial (fs : props) :
  DeepRequired (DeepPartial (TRecord fs)) = DeepRequired (TRecord fs).
Proof.
  unfold DeepRequired, DeepPartial. rewrite distribute_distribute.
  apply distribute_ext. intros x [<-|[]].
  pose proof (DeepRequired_undoes_partial_alt (AObj fs)) as E.
  rewrite (stripped_required_not_undefined (AObj fs) eq_refl) in E.
  rewrite <- E. cbn [DeepPartial_alt flat_map].
  rewrite stripped_required_not_undefined by reflexivity. reflexivity.
Qed.
